(** * A linear (bump) arena allocator with checkpoints: src/arena.c

    The C code works on [uintptr_t] and [size_t] values.  Both are taken to
    be unsigned integers of [8 * sizeof(void * )] bits; they are modelled as
    [Z] with every wrap-around written out ([wrap]).  Arena structures live
    in a store indexed by their address, so that a checkpoint can hold a
    reference to the arena it was taken from; the bytes of the backing
    buffers live in a byte-addressed memory.  The [assert] of [align] is
    taken as compiled in (debug.h turns it into a trap), and a [memset]
    that leaves the buffer of its arena ends the call without a return. *)

From Stdlib Require Import ZArith Lia Bool List.
From Stdlib.Strings Require Import Byte.
From stdpp Require Import base option gmap.

Local Open Scope Z_scope.

(** ** Data model (src/arena.h) *)

Record Arena : Type := {
  buffer : Z;
  buffer_length : Z;
  previous_offset : Z;
  current_offset : Z
}.

(** [cp_arena] is the [Arena *] held by the checkpoint. *)
Record Arena_Checkpoint : Type := {
  cp_arena : Z;
  cp_previous_offset : Z;
  cp_current_offset : Z
}.

(** ** Results of a call *)

(** A call either returns, stops in the [assert] of [align], dereferences
    an arena pointer at which the store holds no arena, or runs its
    [memset] outside the buffer of its arena.  In the last case the call
    does not return; [Fault] holds the arena structure as the call had
    left it when it reached the [memset]. *)
Inductive outcome (A : Type) : Type :=
| Done (a : A)
| Trap
| Undefined
| Fault (stored : Arena).

Arguments Done {A} a.
Arguments Trap {A}.
Arguments Undefined {A}.
Arguments Fault {A} stored.

#[global] Instance outcome_ret : MRet outcome := fun _ a => Done a.

#[global] Instance outcome_bind : MBind outcome := fun _ _ f m =>
  match m with
  | Done a => f a
  | Trap => Trap
  | Undefined => Undefined
  | Fault stored => Fault stored
  end.

(** The arenas in existence, by address, and the bytes of memory. *)
Record heap : Type := {
  arenas : gmap Z Arena;
  bytes : Z -> Byte.byte
}.

Definition deref (arena : Z) (h : heap) : outcome Arena :=
  match arenas h !! arena with
  | Some A => Done A
  | None => Undefined
  end.

(** The memory in which the [n] bytes from address [p] on are set to
    [c]. *)
Definition fill (m : Z -> Byte.byte) (p : Z) (c : Byte.byte) (n : Z)
  : Z -> Byte.byte :=
  fun addr => if (p <=? addr) && (addr <? p + n) then c else m addr.

(** The [n] bytes from address [p] on are bytes of the object of [len]
    bytes at [buf], or there is none of them. *)
Definition within_object (buf len p n : Z) : bool :=
  (n =? 0) || ((buf <=? p) && (p + n <=? buf + len)).

(** [memset(p, c, n)] into the object of [len] bytes at [buf].  It returns
    the memory filled when every byte it writes is one of the object.
    Where it would write outside the object it has no defined behaviour,
    and where the range leaves the address space it faults: there is no
    memory after the call, [None]. *)
Definition memset (buf len : Z) (m : Z -> Byte.byte) (p : Z) (c : Byte.byte)
    (n : Z) : option (Z -> Byte.byte) :=
  if within_object buf len p n then Some (fill m p c n) else None.

Section Machine.

(** [sizeof(void * )] of the target. *)
Variable ptr_bytes : positive.

Definition word_bits : Z := 8 * Z.pos ptr_bytes.

Definition modulus : Z := 2 ^ word_bits.

(** Reduction of an exact result to [uintptr_t] / [size_t]. *)
Definition wrap (x : Z) : Z := x mod modulus.

Definition in_word (x : Z) : Prop := 0 <= x < modulus.

Definition DEFAULT_ALIGNMENT : Z := Z.pos ptr_bytes * 2.

(** ** Operations (src/arena.c) *)

Definition is_power_of_two (x : Z) : bool :=
  Z.land x (wrap (x - 1)) =? 0.

Definition align (pointer alignment : Z) : outcome Z :=
  if is_power_of_two alignment then
    let p := pointer in
    let a := alignment in
    let m := Z.land p (wrap (a - 1)) in
    Done (if negb (m =? 0) then wrap (p + wrap (a - m)) else p)
  else Trap.

(** Lines 39 to 41 of [arena_alloc_align]: the offset of the cursor once its
    address is aligned. *)
Definition aligned_offset (A : Arena) (alignment : Z) : outcome Z :=
  let current_pointer := wrap (buffer A + current_offset A) in
  offset ← align current_pointer alignment;
  Done (wrap (offset - buffer A)).

(** The arena after a granted allocation. *)
Definition bump (A : Arena) (offset size : Z) : Arena :=
  {| buffer := buffer A;
     buffer_length := buffer_length A;
     previous_offset := offset;
     current_offset := wrap (offset + size) |}.

(** The result is [Some p] for the pointer [&arena->buffer[offset]] of
    address [p], and [None] for [NULL].  The two offsets are stored before
    the [memset]; the call returns when the [memset] stays within the
    buffer. *)
Definition arena_alloc_align (arena : Z) (size alignment : Z) (h : heap)
  : outcome (option Z * heap) :=
  A ← deref arena h;
  offset ← aligned_offset A alignment;
  if wrap (offset + size) <=? buffer_length A then
    let p := wrap (buffer A + offset) in
    match memset (buffer A) (buffer_length A) (bytes h) p Byte.x00 size with
    | Some zeroed =>
        Done (Some p,
              {| arenas := <[arena := bump A offset size]> (arenas h);
                 bytes := zeroed |})
    | None => Fault (bump A offset size)
    end
  else Done (None, h).

Definition arena_alloc (arena : Z) (size : Z) (h : heap)
  : outcome (option Z * heap) :=
  arena_alloc_align arena size DEFAULT_ALIGNMENT h.

(** [arena_init] writes all four fields, whatever the structure held. *)
Definition arena_init (arena : Z) (buf : Z) (len : Z) (h : heap) : heap :=
  {| arenas := <[arena := {| buffer := buf;
                             buffer_length := len;
                             previous_offset := 0;
                             current_offset := 0 |}]> (arenas h);
     bytes := bytes h |}.

Definition set_offsets (A : Arena) (prev cur : Z) : Arena :=
  {| buffer := buffer A;
     buffer_length := buffer_length A;
     previous_offset := prev;
     current_offset := cur |}.

Definition arena_free (arena : Z) (h : heap) : outcome heap :=
  A ← deref arena h;
  Done {| arenas := <[arena := set_offsets A 0 0]> (arenas h);
          bytes := bytes h |}.

Definition arena_create_checkpoint (arena : Z) (h : heap)
  : outcome Arena_Checkpoint :=
  A ← deref arena h;
  Done {| cp_arena := arena;
          cp_previous_offset := previous_offset A;
          cp_current_offset := current_offset A |}.

Definition arena_restore (checkpoint : Arena_Checkpoint) (h : heap)
  : outcome heap :=
  A ← deref (cp_arena checkpoint) h;
  Done {| arenas := <[cp_arena checkpoint :=
                        set_offsets A (cp_previous_offset checkpoint)
                                      (cp_current_offset checkpoint)]> (arenas h);
          bytes := bytes h |}.

(** ** Sequences of calls on one arena *)

Inductive request : Type :=
| Alloc_align (size alignment : Z)
| Alloc (size : Z).

Definition request_size (r : request) : Z :=
  match r with
  | Alloc_align size _ => size
  | Alloc size => size
  end.

Definition request_alignment (r : request) : Z :=
  match r with
  | Alloc_align _ alignment => alignment
  | Alloc _ => DEFAULT_ALIGNMENT
  end.

Definition allocate (arena : Z) (r : request) (h : heap)
  : outcome (option Z * heap) :=
  match r with
  | Alloc_align size alignment => arena_alloc_align arena size alignment h
  | Alloc size => arena_alloc arena size h
  end.

(** What a caller sees of a granted allocation: the cursor before the call,
    the offset of the returned pointer from the start of the buffer (a
    pointer difference, hence a word), and the size asked for. *)
Record grant : Type := {
  cursor_before : Z;
  start : Z;
  span : Z
}.

(** The grants of a sequence of allocations, when every one of them
    returns a pointer. *)
Fixpoint allocations (arena : Z) (rs : list request) (h : heap)
  : option (list grant) :=
  match rs with
  | nil => Some nil
  | r :: rs' =>
      match arenas h !! arena, allocate arena r h with
      | Some A, Done (Some p, h') =>
          gs ← allocations arena rs' h';
          Some ({| cursor_before := current_offset A;
                   start := wrap (p - buffer A);
                   span := request_size r |} :: gs)
      | _, _ => None
      end
  end.

(** The bytes an allocation takes from the buffer: the padding in front of
    its region and the region. *)
Definition aligned_size (g : grant) : Z :=
  start g - cursor_before g + span g.

Definition total_aligned_size (gs : list grant) : Z :=
  foldr (fun g acc => aligned_size g + acc) 0 gs.

Definition disjoint (g1 g2 : grant) : Prop :=
  start g1 + span g1 <= start g2 \/ start g2 + span g2 <= start g1.

(** Calls of a client that holds the checkpoints it has taken; [Restore n]
    restores the [n]-th of them. *)
Inductive call : Type :=
| Allocate (r : request)
| Create_checkpoint
| Free
| Restore (n : nat).

Definition client : Type := heap * list Arena_Checkpoint.

Definition step (arena : Z) (c : call) (s : client) : outcome client :=
  match c with
  | Allocate r =>
      res ← allocate arena r s.1; Done (res.2, s.2)
  | Create_checkpoint =>
      cp ← arena_create_checkpoint arena s.1; Done (s.1, s.2 ++ cp :: nil)
  | Free =>
      h' ← arena_free arena s.1; Done (h', s.2)
  | Restore n =>
      match s.2 !! n with
      | Some cp => h' ← arena_restore cp s.1; Done (h', s.2)
      | None => Undefined
      end
  end.

Fixpoint run (arena : Z) (cs : list call) (s : client) : outcome client :=
  match cs with
  | nil => Done s
  | c :: cs' => s' ← step arena c s; run arena cs' s'
  end.

(** The two offsets of an arena of the store. *)
Definition offsets (arena : Z) (h : heap) : option (Z * Z) :=
  A ← arenas h !! arena; Some (previous_offset A, current_offset A).

(** ** Properties of arenas used in the statements *)

(** [r] is the least multiple of [alignment] that is not below [address]. *)
Definition rounds_up (address alignment r : Z) : Prop :=
  address <= r /\ r mod alignment = 0 /\
  forall v, address <= v -> v mod alignment = 0 -> r <= v.

(** The buffer is an object of the address space: it does not sit at
    address 0 and it ends within the addresses of the machine. *)
Definition well_placed (A : Arena) : Prop :=
  0 < buffer A /\ 0 <= buffer_length A /\ buffer A + buffer_length A <= modulus.

(** The arguments of a request are values of [size_t]. *)
Definition request_in_word (r : request) : Prop :=
  match r with
  | Alloc_align size alignment => in_word size /\ in_word alignment
  | Alloc size => in_word size
  end.

(** The region of a grant lies in a buffer of [len] bytes. *)
Definition in_buffer (len : Z) (g : grant) : Prop :=
  0 <= start g /\ start g + span g <= len.

(** The region of [g1] ends where that of [g2] starts, or before. *)
Definition before (g1 g2 : grant) : Prop :=
  start g1 + span g1 <= start g2.

(** The weak form of the invariant, on the cursor alone. *)
Definition cursor_in_bounds (A : Arena) : Prop :=
  0 <= current_offset A <= buffer_length A.

(** [0 <= previous_offset <= current_offset <= buffer_length]. *)
Definition invariant (A : Arena) : Prop :=
  0 <= previous_offset A /\
  previous_offset A <= current_offset A /\
  current_offset A <= buffer_length A.

(** The capacity check of request [r] on arena [A] does not overflow: the
    exact sum of the aligned offset and the size is a word. *)
Definition exact (r : request) (A : Arena) : Prop :=
  request_in_word r /\
  forall o, aligned_offset A (request_alignment r) = Done o ->
            o + request_size r < modulus.

(** Runs of a client in which no capacity check overflows. *)
Inductive exact_run (arena : Z) : list call -> client -> client -> Prop :=
| exact_nil s :
    exact_run arena nil s s
| exact_allocate r cs s s' s'' A :
    arenas s.1 !! arena = Some A ->
    exact r A ->
    step arena (Allocate r) s = Done s' ->
    exact_run arena cs s' s'' ->
    exact_run arena (Allocate r :: cs) s s''
| exact_other c cs s s' s'' :
    (forall r, c <> Allocate r) ->
    step arena c s = Done s' ->
    exact_run arena cs s' s'' ->
    exact_run arena (c :: cs) s s''.

(** What holds of a client between calls: its arena is in order, and so
    was the arena when each of its checkpoints was taken. *)
Definition client_ok (arena len : Z) (s : client) : Prop :=
  (exists A, arenas s.1 !! arena = Some A /\
             well_placed A /\ buffer_length A = len /\ invariant A) /\
  Forall (fun cp => cp_arena cp = arena /\
                    0 <= cp_previous_offset cp /\
                    cp_previous_offset cp <= cp_current_offset cp /\
                    cp_current_offset cp <= len) s.2.

(** The arguments of a call are values of [size_t]. *)
Definition call_in_word (c : call) : Prop :=
  match c with
  | Allocate r => request_in_word r
  | _ => True
  end.

(** What holds of a client between calls, whatever the buffer: the arena
    has the capacity it was given and satisfies the invariant, and so did
    it when each checkpoint held was taken. *)
Definition client_invariant (arena len : Z) (s : client) : Prop :=
  (exists A, arenas s.1 !! arena = Some A /\
             buffer_length A = len /\ invariant A) /\
  Forall (fun cp => cp_arena cp = arena /\
                    0 <= cp_previous_offset cp /\
                    cp_previous_offset cp <= cp_current_offset cp /\
                    cp_current_offset cp <= len) s.2.

End Machine.

(** ** A concrete target and the scenario of the specification *)

(** A target with 8-byte pointers: 64-bit words, default alignment 16. *)
Definition LP64 : positive := 8.

(** A heap with no arena yet, and memory that is not zero. *)
Definition no_arenas : heap :=
  {| arenas := ∅; bytes := fun _ => Byte.xff |}.

(** The scenario of section 8 of the specification, on a 64-byte buffer at
    address [base], for the arena structure at address [arena] of [h]:
    allocate 10, allocate 5, checkpoint, allocate 50, restore, allocate 40,
    allocate 30.  A pointer is given as [base] plus the offset stated. *)
Definition scenario (arena base : Z) (h : heap) : Prop :=
  exists h1 h2 C h3 h4 h5 h6,
    arena_alloc LP64 arena 10 (arena_init arena base 64 h)
      = Done (Some (base + 0), h1) /\
    offsets arena h1 = Some (0, 10) /\
    arena_alloc LP64 arena 5 h1 = Done (Some (base + 16), h2) /\
    offsets arena h2 = Some (16, 21) /\
    arena_create_checkpoint arena h2 = Done C /\
    C = {| cp_arena := arena; cp_previous_offset := 16; cp_current_offset := 21 |} /\
    arena_alloc LP64 arena 50 h2 = Done (None, h3) /\
    offsets arena h3 = Some (16, 21) /\
    arena_restore C h3 = Done h4 /\
    offsets arena h4 = Some (16, 21) /\
    arena_alloc LP64 arena 40 h4 = Done (None, h5) /\
    offsets arena h5 = Some (16, 21) /\
    arena_alloc LP64 arena 30 h5 = Done (Some (base + 32), h6) /\
    offsets arena h6 = Some (32, 62).

(** An arena over 64 bytes at address 4096 with 10 bytes in use, alone in
    the store. *)
Definition arena_10 : Arena :=
  {| buffer := 4096; buffer_length := 64;
     previous_offset := 0; current_offset := 10 |}.

Definition heap_10 : heap :=
  {| arenas := {[ 1 := arena_10 ]}; bytes := fun _ => Byte.xff |}.

(** A size of [size_t] that makes [16 + size] pass [2 ^ 64] by 8. *)
Definition huge : Z := 2 ^ 64 - 8.

(** [heap_10] after 5 more bytes were granted at offset 16. *)
Definition heap_15 : heap :=
  {| arenas := <[ 1 := bump LP64 arena_10 16 5 ]> (arenas heap_10);
     bytes := fill (bytes heap_10) 4112 Byte.x00 5 |}.

Definition checkpoint_10 : Arena_Checkpoint :=
  {| cp_arena := 1; cp_previous_offset := 0; cp_current_offset := 10 |}.

(** Three requests and the grants they get on 64 bytes at address 4096. *)
Definition three_requests : list request :=
  Alloc 10 :: Alloc 5 :: Alloc_align 30 16 :: nil.

Definition grant_0 : grant := {| cursor_before := 0; start := 0; span := 10 |}.
Definition grant_1 : grant := {| cursor_before := 10; start := 16; span := 5 |}.
Definition grant_2 : grant := {| cursor_before := 21; start := 32; span := 30 |}.

Definition three_grants : list grant := grant_0 :: grant_1 :: grant_2 :: nil.

(** ** What a caller sees, and what holds whatever the sizes *)

(** The pointer returned by an allocation and the arena structure it
    leaves. *)
Definition observe (arena : Z) (r : outcome (option Z * heap))
  : outcome (option Z * option Arena) :=
  res ← r; Done (res.1, arenas res.2 !! arena).

(** The arena at [arena] is bound to [len] bytes at [buf] with its cursor
    within them, and the cursor was within them when each checkpoint held
    was taken. *)
Definition client_bounded (arena buf len : Z) (s : client) : Prop :=
  (exists A, arenas s.1 !! arena = Some A /\
             buffer A = buf /\ buffer_length A = len /\
             cursor_in_bounds A) /\
  Forall (fun cp => cp_arena cp = arena /\
                    0 <= cp_current_offset cp <= len) s.2.

(** The buffer an arena of the store is bound to: address and length. *)
Definition binding (a : Z) (h : heap) : option (Z * Z) :=
  A ← arenas h !! a; Some (buffer A, buffer_length A).

(** ** The callers in src/main.c *)

(** Conversion to [uint32_t] / [unsigned]. *)
Definition u32 (x : Z) : Z := x mod 2 ^ 32.

Definition UINT32_MAX : Z := 2 ^ 32 - 1.

(** The macros of lines 16 to 18. *)
Definition MAX (a b : Z) : Z := if a >? b then a else b.

Definition MIN (a b : Z) : Z := if a <? b then a else b.

Definition CLAMP (n low high : Z) : Z := MIN high (MAX low n).

Definition MAX_FRAMES_IN_FLIGHT : Z := 2.

Record VkExtent2D : Type := {
  width : Z;
  height : Z
}.

(** The fields of [VkSurfaceCapabilitiesKHR] that [main] reads. *)
Record VkSurfaceCapabilitiesKHR : Type := {
  minImageCount : Z;
  maxImageCount : Z;
  currentExtent : VkExtent2D;
  minImageExtent : VkExtent2D;
  maxImageExtent : VkExtent2D
}.

(** Lines 383 to 397 of [main]: the resolution of the swapchain images,
    from the capabilities of the surface and the size GLFW reports for the
    framebuffer, two [int]s. *)
Definition swap_extent (capabilities : VkSurfaceCapabilitiesKHR)
    (fb_width fb_height : Z) : VkExtent2D :=
  if negb (width (currentExtent capabilities) =? UINT32_MAX) then
    currentExtent capabilities
  else
    {| width := CLAMP (u32 fb_width)
                      (width (minImageExtent capabilities))
                      (width (maxImageExtent capabilities));
       height := CLAMP (u32 fb_height)
                       (height (minImageExtent capabilities))
                       (height (maxImageExtent capabilities)) |}.

(** Lines 468 to 474 of [main]: the number of images of the swapchain. *)
Definition image_count (capabilities : VkSurfaceCapabilitiesKHR) : Z :=
  let n_images := u32 (minImageCount capabilities + 1) in
  if (maxImageCount capabilities >? 0)
     && (n_images >? maxImageCount capabilities)
  then maxImageCount capabilities
  else n_images.

(** Line 990 of [main]: the frame after [current_frame]. *)
Definition next_frame (current_frame : Z) : Z :=
  u32 (u32 (current_frame + 1) mod MAX_FRAMES_IN_FLIGHT).

Record VkSurfaceFormatKHR : Type := {
  format : Z;
  colorSpace : Z
}.

Record Queue_Family_Indices : Type := {
  graphics_family_exists : bool;
  graphics_family : Z;
  presentation_family_exists : bool;
  presentation_family : Z
}.

(** What Vulkan reports of one queue family of a device: the [queueFlags]
    of its [VkQueueFamilyProperties], and the answer of
    [vkGetPhysicalDeviceSurfaceSupportKHR] for it. *)
Record queue_family : Type := {
  queueFlags : Z;
  presentation_support : bool
}.

Section Vulkan.

(** Constants of the Vulkan headers, which are not part of the
    repository. *)
Variable VK_FORMAT_UNDEFINED : Z.
Variable VK_FORMAT_B8G8R8A8_SRGB : Z.
Variable VK_COLOR_SPACE_SRGB_NONLINEAR_KHR : Z.
Variable VK_PRESENT_MODE_MAILBOX_KHR : Z.
Variable VK_PRESENT_MODE_FIFO_KHR : Z.
Variable VK_QUEUE_GRAPHICS_BIT : Z.

(** [sizeof(VkQueueFamilyProperties)]. *)
Variable sizeof_VkQueueFamilyProperties : Z.

(** What the second call of [vkGetPhysicalDeviceQueueFamilyProperties]
    does to memory when it stores the families at an address. *)
Variable store_families : list queue_family -> Z -> (Z -> Byte.byte) -> Z -> Byte.byte.

Variable ptr_bytes : positive.

(** The format [main] prefers. *)
Definition preferred_format (f : VkSurfaceFormatKHR) : bool :=
  (format f =? VK_FORMAT_B8G8R8A8_SRGB)
  && (colorSpace f =? VK_COLOR_SPACE_SRGB_NONLINEAR_KHR).

(** The loop of lines 419 to 426 of [main], from [formats[i]] on. *)
Fixpoint scan_formats (formats : list VkSurfaceFormatKHR)
    (surface_format : VkSurfaceFormatKHR) : VkSurfaceFormatKHR :=
  match formats with
  | nil => surface_format
  | this_format :: rest =>
      if (format this_format =? VK_FORMAT_B8G8R8A8_SRGB)
         && (colorSpace this_format =? VK_COLOR_SPACE_SRGB_NONLINEAR_KHR)
      then this_format
      else scan_formats rest surface_format
  end.

(** Lines 370 and 419 to 427 of [main]: the surface format chosen among
    those the device supports.  [None] stands for the read of [formats[0]]
    in an empty array; [main] exits before, on line 406, when the device
    reports no format. *)
Definition choose_surface_format (formats : list VkSurfaceFormatKHR)
  : option VkSurfaceFormatKHR :=
  let surface_format :=
    scan_formats formats {| format := VK_FORMAT_UNDEFINED; colorSpace := 0 |} in
  if format surface_format =? VK_FORMAT_UNDEFINED then formats !! 0%nat
  else Some surface_format.

(** The loop of lines 454 to 460 of [main]. *)
Fixpoint scan_present_modes (presentation_modes : list Z) (present_mode : Z)
  : Z :=
  match presentation_modes with
  | nil => present_mode
  | this_present_mode :: rest =>
      if this_present_mode =? VK_PRESENT_MODE_MAILBOX_KHR
      then this_present_mode
      else scan_present_modes rest present_mode
  end.

(** Lines 371 and 454 to 460 of [main]. *)
Definition choose_present_mode (presentation_modes : list Z) : Z :=
  scan_present_modes presentation_modes VK_PRESENT_MODE_FIFO_KHR.

Definition has_graphics (f : queue_family) : bool :=
  negb (Z.land (queueFlags f) VK_QUEUE_GRAPHICS_BIT =? 0).

(** The loop of lines 129 to 143 of [find_queue_families], from index [i]
    on.  The index is below the count, a [uint32_t], so that [++i] does
    not wrap. *)
Fixpoint scan_queue_families (queue_families : list queue_family) (i : Z)
    (indices : Queue_Family_Indices) : Queue_Family_Indices :=
  match queue_families with
  | nil => indices
  | f :: rest =>
      let indices1 :=
        if has_graphics f then
          {| graphics_family_exists := true;
             graphics_family := u32 i;
             presentation_family_exists := presentation_family_exists indices;
             presentation_family := presentation_family indices |}
        else indices in
      let indices2 :=
        if presentation_support f then
          {| graphics_family_exists := graphics_family_exists indices1;
             graphics_family := graphics_family indices1;
             presentation_family_exists := true;
             presentation_family := u32 i |}
        else indices1 in
      if graphics_family_exists indices2 && presentation_family_exists indices2
      then indices2
      else scan_queue_families rest (i + 1) indices2
  end.

(** The family of index [i], a [uint32_t]. *)
Definition family_at (families : list queue_family) (i : Z)
  : option queue_family :=
  families !! Z.to_nat i.

(** What holds at the head of the loop of [find_queue_families] before the
    family of index [k]: the loop has not seen both kinds of family; a flag
    that is set comes with the index of a family seen that has the
    capability, a flag that is not set means no family seen has it. *)
Definition scan_invariant (families : list queue_family) (k : nat)
    (ix : Queue_Family_Indices) : Prop :=
  graphics_family_exists ix && presentation_family_exists ix = false /\
  (if graphics_family_exists ix
   then 0 <= graphics_family ix < Z.of_nat k /\
        exists f, family_at families (graphics_family ix) = Some f /\
                  has_graphics f = true
   else forall j f, (j < k)%nat -> families !! j = Some f ->
                    has_graphics f = false) /\
  (if presentation_family_exists ix
   then 0 <= presentation_family ix < Z.of_nat k /\
        exists f, family_at families (presentation_family ix) = Some f /\
                  presentation_support f = true
   else forall j f, (j < k)%nat -> families !! j = Some f ->
                    presentation_support f = false).

(** What the indices returned say of the families: an index that is said
    to exist is that of a family with the capability, and when both exist
    they are equal exactly when the graphics family can present. *)
Definition indices_sound (families : list queue_family)
    (ix : Queue_Family_Indices) : Prop :=
  (graphics_family_exists ix = false \/
   exists f, family_at families (graphics_family ix) = Some f /\
             has_graphics f = true) /\
  (presentation_family_exists ix = false \/
   exists f, family_at families (presentation_family ix) = Some f /\
             presentation_support f = true) /\
  (graphics_family_exists ix && presentation_family_exists ix = false \/
   (graphics_family ix = presentation_family ix <->
    exists f, family_at families (graphics_family ix) = Some f /\
              presentation_support f = true)).

(** [find_queue_families], on the arena at [global_arena], for a device
    and a surface of which Vulkan reports [families]. *)
Definition find_queue_families (global_arena : Z)
    (families : list queue_family) (h : heap)
  : outcome (Queue_Family_Indices * heap) :=
  let indices := {| graphics_family_exists := false; graphics_family := 0;
                    presentation_family_exists := false;
                    presentation_family := 0 |} in
  checkpoint ← arena_create_checkpoint global_arena h;
  let n_queue_families := u32 (Z.of_nat (length families)) in
  res ← arena_alloc ptr_bytes global_arena
          (wrap ptr_bytes (n_queue_families * sizeof_VkQueueFamilyProperties)) h;
  match res.1 with
  | None => Trap
  | Some queue_families =>
      let h1 := {| arenas := arenas res.2;
                   bytes := store_families families queue_families (bytes res.2) |} in
      let indices := scan_queue_families families 0 indices in
      h2 ← arena_restore checkpoint h1;
      Done (indices, h2)
  end.

End Vulkan.

(** The values of the constants in the Vulkan headers. *)
Definition vk_present_mode_mailbox : Z := 1.
Definition vk_present_mode_fifo : Z := 2.
Definition vk_format_b8g8r8a8_srgb : Z := 50.
Definition vk_queue_graphics_bit : Z := 1.

Definition vk_format_undefined : Z := 0.
Definition vk_color_space_srgb_nonlinear : Z := 0.

(** ** Concrete inputs for the instances *)

Definition checkpoint_0 : Arena_Checkpoint :=
  {| cp_arena := 1; cp_previous_offset := 0; cp_current_offset := 0 |}.

(** A client that allocates, takes a checkpoint, allocates and restores. *)
Definition scoped_calls : list call :=
  Allocate (Alloc 10) :: Create_checkpoint :: Allocate (Alloc 5)
  :: Restore 0 :: nil.

(** A surface that leaves the extent to the application. *)
Definition surface_capabilities : VkSurfaceCapabilitiesKHR :=
  {| minImageCount := 2;
     maxImageCount := 3;
     currentExtent := {| width := UINT32_MAX; height := UINT32_MAX |};
     minImageExtent := {| width := 1; height := 1 |};
     maxImageExtent := {| width := 4096; height := 4096 |} |}.

Definition two_formats : list VkSurfaceFormatKHR :=
  {| format := 44; colorSpace := 0 |}
  :: {| format := 50; colorSpace := 0 |} :: nil.

(** A device with a family for graphics and another one that presents. *)
Definition two_families : list queue_family :=
  {| queueFlags := 1; presentation_support := false |}
  :: {| queueFlags := 4; presentation_support := true |} :: nil.

(** A stand-in for what Vulkan stores: it leaves the bytes as they are. *)
Definition store_nothing (families : list queue_family) (p : Z)
    (m : Z -> Byte.byte) : Z -> Byte.byte := m.

(** The heap of [main] after line 174, with the global arena at address 1
    and its buffer of 65536 bytes at address 4096. *)
Definition main_heap : heap := arena_init 1 4096 65536 no_arenas.

(** * Facts about the machine arithmetic *)

Section Arithmetic.

Variable ptr_bytes : positive.

Local Abbreviation word_bits := (word_bits ptr_bytes).
Local Abbreviation modulus := (modulus ptr_bytes).
Local Abbreviation wrap := (wrap ptr_bytes).
Local Abbreviation in_word := (in_word ptr_bytes).
Local Abbreviation is_power_of_two := (is_power_of_two ptr_bytes).
Local Abbreviation align := (align ptr_bytes).

Lemma word_bits_pos : 0 < word_bits.
Proof. unfold word_bits. lia. Qed.

Lemma modulus_pos : 0 < modulus.
Proof. apply Z.pow_pos_nonneg; [lia | pose proof word_bits_pos; lia]. Qed.

Lemma modulus_gt_1 : 1 < modulus.
Proof. apply Z.pow_gt_1; [lia | apply word_bits_pos]. Qed.

Lemma wrap_range x : 0 <= wrap x < modulus.
Proof. apply Z.mod_pos_bound, modulus_pos. Qed.

Lemma wrap_small x : 0 <= x < modulus -> wrap x = x.
Proof. apply Z.mod_small. Qed.

Lemma wrap_add_modulus x : wrap (x + modulus) = wrap x.
Proof.
  unfold wrap.
  rewrite <- (Z.mul_1_l modulus) at 1.
  apply Z.mod_add. pose proof modulus_pos. lia.
Qed.

Lemma wrap_wrap_add_l x y : wrap (wrap x + y) = wrap (x + y).
Proof. apply Zplus_mod_idemp_l. Qed.

Lemma wrap_wrap_sub_l x y : wrap (wrap x - y) = wrap (x - y).
Proof. apply Zminus_mod_idemp_l. Qed.

Lemma pow2_bounds k : 0 <= k < word_bits -> 0 < 2 ^ k < modulus.
Proof.
  intros Hk. split.
  - apply Z.pow_pos_nonneg; lia.
  - apply Z.pow_lt_mono_r; lia.
Qed.

Lemma modulus_split k :
  0 <= k < word_bits -> modulus = 2 ^ (word_bits - k) * 2 ^ k.
Proof.
  intros Hk. unfold modulus.
  rewrite <- Z.pow_add_r by lia. f_equal. lia.
Qed.

(** Reduction modulo a power of two that fits the word commutes with
    [wrap]. *)
Lemma wrap_mod_pow2 x k :
  0 <= k < word_bits -> (wrap x) mod 2 ^ k = x mod 2 ^ k.
Proof.
  intros Hk. unfold wrap.
  pose proof (pow2_bounds k Hk) as Hp.
  rewrite (modulus_split k Hk).
  rewrite Z.mul_comm.
  rewrite Z.rem_mul_r by (try apply Z.pow_pos_nonneg; lia).
  rewrite (Z.mul_comm (2 ^ k)), Z.mod_add by lia.
  apply Z.mod_mod. lia.
Qed.

Lemma wrap_neg x : - modulus <= x < 0 -> wrap x = x + modulus.
Proof.
  intros Hx. unfold wrap. symmetry.
  apply Z.mod_unique_pos with (q := -1); lia.
Qed.

Lemma wrap_pred_pow2 k : 0 <= k < word_bits -> wrap (2 ^ k - 1) = Z.ones k.
Proof.
  intros Hk. pose proof (pow2_bounds k Hk).
  rewrite Z.ones_equiv, wrap_small; lia.
Qed.

Lemma land_pred_pow2 x k :
  0 <= k < word_bits -> Z.land x (wrap (2 ^ k - 1)) = x mod 2 ^ k.
Proof. intros Hk. rewrite wrap_pred_pow2, Z.land_ones; lia. Qed.

(** ** [is_power_of_two] *)

Lemma is_power_of_two_pow2 k :
  0 <= k < word_bits -> is_power_of_two (2 ^ k) = true.
Proof.
  intros Hk. unfold is_power_of_two.
  pose proof (pow2_bounds k Hk).
  rewrite land_pred_pow2, Z.mod_same by lia. reflexivity.
Qed.

Lemma is_power_of_two_0 : is_power_of_two 0 = true.
Proof. unfold is_power_of_two. rewrite Z.land_0_l. reflexivity. Qed.

(** A positive word that shares no bit with its predecessor has a single
    bit: the top bit of [x] is also the top bit of [x - 1] unless [x] is
    exactly that bit. *)
Lemma is_power_of_two_inv x :
  in_word x -> is_power_of_two x = true ->
  x = 0 \/ exists k, 0 <= k < word_bits /\ x = 2 ^ k.
Proof.
  intros [Hx0 HxM] Hp.
  destruct (Z.eq_dec x 0) as [-> | Hne]; [now left | right].
  assert (Hpos : 0 < x) by lia.
  unfold is_power_of_two in Hp. apply Z.eqb_eq in Hp.
  rewrite wrap_small in Hp by lia.
  pose proof (Z.log2_spec x Hpos) as [Hlo Hhi].
  pose proof (Z.log2_nonneg x) as Hk0.
  exists (Z.log2 x). split.
  - split; [assumption |].
    apply (Z.pow_lt_mono_r_iff 2); [lia | pose proof word_bits_pos; lia |].
    fold modulus. lia.
  - destruct (Z.eq_dec x (2 ^ Z.log2 x)) as [Heq | Hgt]; [assumption | exfalso].
    assert (Hlog : Z.log2 (x - 1) = Z.log2 x).
    { apply Z.log2_unique; [assumption | lia]. }
    assert (Hbit : Z.testbit (Z.land x (x - 1)) (Z.log2 x) = true).
    { rewrite Z.land_spec, Z.bit_log2 by assumption.
      rewrite <- Hlog, Z.bit_log2 by lia. reflexivity. }
    rewrite Hp, Z.bits_0 in Hbit. discriminate.
Qed.

(** ** [align] *)

Lemma align_trap p a : is_power_of_two a = false -> align p a = Trap.
Proof. intros Hp. unfold align. rewrite Hp. reflexivity. Qed.

(** On a power of two, [align] adds the distance to the next multiple and
    reduces the sum to the word. *)
Lemma align_pow2 p k :
  0 <= k < word_bits ->
  align p (2 ^ k) = Done (wrap (p + (- p) mod 2 ^ k)) \/
  align p (2 ^ k) = Done p /\ p mod 2 ^ k = 0.
Proof.
  intros Hk. pose proof (pow2_bounds k Hk) as Hb.
  unfold align. rewrite is_power_of_two_pow2 by assumption. cbv zeta.
  rewrite land_pred_pow2 by assumption.
  pose proof (Z.mod_pos_bound p (2 ^ k) ltac:(lia)) as Hm.
  destruct (Z.eqb_spec (p mod 2 ^ k) 0) as [Hz | Hnz]; cbn [negb].
  - right. split; [reflexivity | assumption].
  - left. rewrite Z.mod_opp_l_nz by lia.
    rewrite (wrap_small (2 ^ k - p mod 2 ^ k)) by lia. reflexivity.
Qed.

Lemma align_pow2_word p k :
  in_word p -> 0 <= k < word_bits ->
  align p (2 ^ k) = Done (wrap (p + (- p) mod 2 ^ k)).
Proof.
  intros Hp Hk. destruct (align_pow2 p k Hk) as [H | [H Hz]]; [assumption |].
  rewrite H, Z.mod_opp_l_z, Z.add_0_r, wrap_small; trivial.
  pose proof (pow2_bounds k Hk). lia.
Qed.

(** With alignment 0 the mask is all ones and every address is sent to 0. *)
Lemma align_0 p : in_word p -> align p 0 = Done 0.
Proof.
  intros [Hp0 HpM]. unfold align. rewrite is_power_of_two_0. cbv zeta.
  pose proof modulus_gt_1 as HM.
  rewrite (wrap_neg (0 - 1)) by lia.
  replace (0 - 1 + modulus) with (Z.ones word_bits)
    by (rewrite Z.ones_equiv; unfold modulus; lia).
  rewrite Z.land_ones by (pose proof word_bits_pos; lia).
  fold modulus. rewrite Z.mod_small by lia.
  destruct (Z.eqb_spec p 0) as [-> | Hne]; cbn [negb]; [reflexivity |].
  rewrite (wrap_neg (0 - p)) by lia.
  replace (p + (0 - p + modulus)) with (0 + modulus) by lia.
  rewrite wrap_add_modulus. reflexivity.
Qed.

End Arithmetic.

(** * Facts about the allocation path *)

Section Allocation.

Variable ptr_bytes : positive.

Local Abbreviation word_bits := (word_bits ptr_bytes).
Local Abbreviation modulus := (modulus ptr_bytes).
Local Abbreviation wrap := (wrap ptr_bytes).
Local Abbreviation in_word := (in_word ptr_bytes).
Local Abbreviation is_power_of_two := (is_power_of_two ptr_bytes).
Local Abbreviation align := (align ptr_bytes).
Local Abbreviation aligned_offset := (aligned_offset ptr_bytes).
Local Abbreviation bump := (bump ptr_bytes).
Local Abbreviation arena_alloc_align := (arena_alloc_align ptr_bytes).
Local Abbreviation arena_alloc := (arena_alloc ptr_bytes).
Local Abbreviation well_placed := (well_placed ptr_bytes).

Lemma round_up_mod x n : 0 < n -> (x + (- x) mod n) mod n = 0.
Proof.
  intros Hn.
  rewrite Zplus_mod_idemp_r, Z.add_opp_diag_r. apply Z.mod_0_l. lia.
Qed.

Lemma opp_mod_congr x y n : x mod n = y mod n -> (- x) mod n = (- y) mod n.
Proof.
  intros H.
  rewrite <- (Z.sub_0_l x), <- (Z.sub_0_l y).
  rewrite <- (Zminus_mod_idemp_r 0 x), <- (Zminus_mod_idemp_r 0 y), H.
  reflexivity.
Qed.

(** A multiple of [2 ^ k] that is less than [2 ^ k] above an address of
    the machine is at most [modulus]. *)
Lemma round_up_fits x k :
  0 <= k < word_bits -> x <= modulus -> x + (- x) mod 2 ^ k <= modulus.
Proof.
  intros Hk Hx.
  pose proof (pow2_bounds ptr_bytes k Hk) as Hb.
  pose proof (round_up_mod x (2 ^ k) ltac:(lia)) as Hz.
  pose proof (Z.mod_pos_bound (- x) (2 ^ k) ltac:(lia)) as Hpad.
  apply Z.mod_divide in Hz; [| lia]. destruct Hz as [t Ht].
  pose proof (modulus_split ptr_bytes k Hk) as HM.
  set (q := 2 ^ (word_bits - k)) in *.
  rewrite Ht, HM.
  apply Z.mul_le_mono_nonneg_r; [lia |].
  assert (t * 2 ^ k < (q + 1) * 2 ^ k) by lia.
  assert (t < q + 1) by (apply Z.mul_lt_mono_pos_r with (p := 2 ^ k); lia).
  lia.
Qed.

(** The offset computed on lines 39 to 41 for a power of two: the cursor
    plus the padding to the next aligned address, exactly. *)
Lemma aligned_offset_pow2 A k :
  well_placed A -> cursor_in_bounds A -> 0 <= k < word_bits ->
  let pad := (- (buffer A + current_offset A)) mod 2 ^ k in
  aligned_offset A (2 ^ k) = Done (current_offset A + pad) /\
  0 <= pad < 2 ^ k /\
  buffer A + current_offset A + pad <= modulus.
Proof.
  intros (Hb & Hl & Hfit) [Hc0 Hc] Hk pad.
  pose proof (pow2_bounds ptr_bytes k Hk) as Hp.
  assert (Hpad : 0 <= pad < 2 ^ k) by (apply Z.mod_pos_bound; lia).
  assert (Htop : buffer A + current_offset A + pad <= modulus)
    by (apply round_up_fits; [assumption | lia]).
  split; [| split; assumption].
  unfold aligned_offset.
  rewrite align_pow2_word by (try apply wrap_range; assumption).
  cbn [mbind outcome_bind]. f_equal.
  rewrite (opp_mod_congr _ (buffer A + current_offset A))
    by (apply wrap_mod_pow2; assumption).
  fold pad.
  rewrite wrap_wrap_sub_l, <- Z.add_sub_assoc, wrap_wrap_add_l.
  replace (buffer A + current_offset A + (pad - buffer A))
    with (current_offset A + pad) by lia.
  apply wrap_small. lia.
Qed.

(** With alignment 0 the aligned address is 0, and the offset is the
    distance from the buffer to the end of the address space. *)
Lemma aligned_offset_0 A :
  well_placed A ->
  aligned_offset A 0 = Done (modulus - buffer A).
Proof.
  intros (Hb & Hl & Hfit).
  unfold aligned_offset.
  rewrite align_0 by apply wrap_range.
  cbn [mbind outcome_bind]. f_equal.
  rewrite (wrap_neg ptr_bytes (0 - buffer A)) by lia. lia.
Qed.

(** Whatever alignment passes the assertion, the aligned offset is not
    below the cursor and is a word. *)
Lemma aligned_offset_ge A a o :
  well_placed A -> cursor_in_bounds A -> in_word a ->
  aligned_offset A a = Done o ->
  current_offset A <= o < modulus.
Proof.
  intros Hw Hc Ha Ho.
  destruct (is_power_of_two a) eqn:Hp.
  - destruct (is_power_of_two_inv ptr_bytes a Ha Hp) as [-> | (k & Hk & ->)].
    + rewrite aligned_offset_0 in Ho by assumption.
      injection Ho as <-. destruct Hw as (? & ? & ?), Hc. lia.
    + destruct (aligned_offset_pow2 A k Hw Hc Hk) as (Heq & Hpad & Htop).
      rewrite Heq in Ho. injection Ho as <-.
      destruct Hw as (? & ? & ?), Hc. lia.
  - unfold aligned_offset in Ho. rewrite align_trap in Ho by assumption.
    discriminate.
Qed.

(** ** Inversion of [arena_alloc_align] *)

Lemma deref_done arena h A : deref arena h = Done A <-> arenas h !! arena = Some A.
Proof.
  unfold deref. destruct (arenas h !! arena); split; intros H;
    try discriminate; congruence.
Qed.

Lemma aligned_offset_word A a o : aligned_offset A a = Done o -> in_word o.
Proof.
  unfold aligned_offset. destruct (align _ a); cbn [mbind outcome_bind];
    intros H; try discriminate.
  injection H as <-. apply wrap_range.
Qed.

Lemma arena_alloc_align_granted arena size alignment h p h' :
  arena_alloc_align arena size alignment h = Done (Some p, h') ->
  exists A o,
    arenas h !! arena = Some A /\
    aligned_offset A alignment = Done o /\
    wrap (o + size) <= buffer_length A /\
    p = wrap (buffer A + o) /\
    h' = {| arenas := <[arena := bump A o size]> (arenas h);
            bytes := fill (bytes h) p Byte.x00 size |}.
Proof.
  unfold arena_alloc_align.
  destruct (deref arena h) as [A | | |] eqn:HA; cbn [mbind outcome_bind];
    try discriminate.
  destruct (aligned_offset A alignment) as [o | | |] eqn:Ho;
    cbn [mbind outcome_bind]; try discriminate.
  cbv zeta. unfold memset.
  destruct (Z.leb_spec (wrap (o + size)) (buffer_length A)) as [Hle | Hgt];
    [| discriminate].
  destruct (within_object _ _ _ size); intros H; [| discriminate].
  injection H as <- <-. exists A, o.
  apply deref_done in HA. repeat split; assumption.
Qed.

(** A call that returns a pointer has kept its [memset] within the
    buffer. *)
Lemma arena_alloc_align_granted_within arena size alignment h p h' :
  arena_alloc_align arena size alignment h = Done (Some p, h') ->
  exists A,
    arenas h !! arena = Some A /\
    within_object (buffer A) (buffer_length A) p size = true.
Proof.
  unfold arena_alloc_align.
  destruct (deref arena h) as [A | | |] eqn:HA; cbn [mbind outcome_bind];
    try discriminate.
  destruct (aligned_offset A alignment) as [o | | |] eqn:Ho;
    cbn [mbind outcome_bind]; try discriminate.
  cbv zeta. unfold memset.
  destruct (Z.leb_spec (wrap (o + size)) (buffer_length A)) as [Hle | Hgt];
    [| discriminate].
  destruct (within_object _ _ _ size) eqn:Hin; intros H; [| discriminate].
  injection H as <- _. exists A.
  apply deref_done in HA. split; assumption.
Qed.

Lemma arena_alloc_align_refused arena size alignment h h' :
  arena_alloc_align arena size alignment h = Done (None, h') ->
  h' = h /\
  exists A o,
    arenas h !! arena = Some A /\
    aligned_offset A alignment = Done o /\
    buffer_length A < wrap (o + size).
Proof.
  unfold arena_alloc_align.
  destruct (deref arena h) as [A | | |] eqn:HA; cbn [mbind outcome_bind];
    try discriminate.
  destruct (aligned_offset A alignment) as [o | | |] eqn:Ho;
    cbn [mbind outcome_bind]; try discriminate.
  cbv zeta. unfold memset.
  destruct (Z.leb_spec (wrap (o + size)) (buffer_length A)) as [Hle | Hgt].
  - destruct (within_object _ _ _ size); discriminate.
  - intros H. injection H as <-. split; [reflexivity |]. exists A, o.
    apply deref_done in HA. repeat split; assumption.
Qed.

(** The ways out of the capacity check, for an arena of the store whose
    aligned offset is known. *)
Lemma arena_alloc_align_fits arena size alignment h A o :
  arenas h !! arena = Some A ->
  aligned_offset A alignment = Done o ->
  wrap (o + size) <= buffer_length A ->
  within_object (buffer A) (buffer_length A) (wrap (buffer A + o)) size = true ->
  arena_alloc_align arena size alignment h =
    Done (Some (wrap (buffer A + o)),
          {| arenas := <[arena := bump A o size]> (arenas h);
             bytes := fill (bytes h) (wrap (buffer A + o)) Byte.x00 size |}).
Proof.
  intros HA Ho Hle Hin. unfold arena_alloc_align.
  apply deref_done in HA. rewrite HA. cbn [mbind outcome_bind].
  rewrite Ho. cbn [mbind outcome_bind]. cbv zeta. unfold memset. rewrite Hin.
  destruct (Z.leb_spec (wrap (o + size)) (buffer_length A)); [reflexivity | lia].
Qed.

Lemma arena_alloc_align_faults arena size alignment h A o :
  arenas h !! arena = Some A ->
  aligned_offset A alignment = Done o ->
  wrap (o + size) <= buffer_length A ->
  within_object (buffer A) (buffer_length A) (wrap (buffer A + o)) size = false ->
  arena_alloc_align arena size alignment h = Fault (bump A o size).
Proof.
  intros HA Ho Hle Hin. unfold arena_alloc_align.
  apply deref_done in HA. rewrite HA. cbn [mbind outcome_bind].
  rewrite Ho. cbn [mbind outcome_bind]. cbv zeta. unfold memset. rewrite Hin.
  destruct (Z.leb_spec (wrap (o + size)) (buffer_length A)); [reflexivity | lia].
Qed.

Lemma arena_alloc_align_full arena size alignment h A o :
  arenas h !! arena = Some A ->
  aligned_offset A alignment = Done o ->
  buffer_length A < wrap (o + size) ->
  arena_alloc_align arena size alignment h = Done (None, h).
Proof.
  intros HA Ho Hgt. unfold arena_alloc_align.
  apply deref_done in HA. rewrite HA. cbn [mbind outcome_bind].
  rewrite Ho. cbn [mbind outcome_bind].
  destruct (Z.leb_spec (wrap (o + size)) (buffer_length A)); [lia | reflexivity].
Qed.

(** A [memset] that stays within the buffer belongs to a request whose
    exact sum does not exceed the capacity: the region starts at the
    offset computed and the check did not overflow. *)
Lemma within_object_exact A o size :
  in_word o -> 0 <= buffer_length A < modulus -> 0 <= size ->
  within_object (buffer A) (buffer_length A) (wrap (buffer A + o)) size = true ->
  wrap (o + size) <= buffer_length A ->
  o + size <= buffer_length A.
Proof.
  intros [Ho0 HoM] [Hl0 HlM] Hs Hin Hle. unfold within_object in Hin.
  destruct (Z.eqb_spec size 0) as [-> | Hne].
  - rewrite Z.add_0_r in *. rewrite wrap_small in Hle; lia.
  - cbn [orb] in Hin. apply andb_true_iff in Hin as [Hlo Hhi].
    apply Z.leb_le in Hlo, Hhi.
    pose proof (modulus_pos ptr_bytes) as HM.
    pose proof (Z.div_mod (buffer A + o) modulus ltac:(lia)) as Hdm.
    fold (wrap (buffer A + o)) in Hdm.
    set (q := (buffer A + o) / modulus) in *.
    set (p := wrap (buffer A + o)) in *.
    assert (Hq : q = 0) by nia.
    rewrite Hq in Hdm. lia.
Qed.

(** The address handed out is the aligned address. *)
Lemma aligned_offset_congruent A k o :
  0 <= k < word_bits ->
  aligned_offset A (2 ^ k) = Done o ->
  wrap (buffer A + o) mod 2 ^ k = 0.
Proof.
  intros Hk Ho. pose proof (pow2_bounds ptr_bytes k Hk) as Hb.
  unfold aligned_offset in Ho.
  set (P := wrap (buffer A + current_offset A)) in *.
  assert (Hmod : forall X, X mod 2 ^ k = 0 ->
                           wrap (buffer A + wrap (X - buffer A)) mod 2 ^ k = 0).
  { intros X HX.
    rewrite wrap_mod_pow2 by assumption.
    rewrite Z.add_mod, wrap_mod_pow2, <- Z.add_mod by (assumption || lia).
    replace (buffer A + (X - buffer A)) with X by lia. assumption. }
  destruct (align_pow2 ptr_bytes P k Hk) as [E | [E Hz]];
    rewrite E in Ho; cbn [mbind outcome_bind] in Ho; injection Ho as <-;
    apply Hmod.
  - rewrite wrap_mod_pow2 by assumption. apply round_up_mod. lia.
  - assumption.
Qed.

(** ** The alignment utility *)

(** C9: [is_power_of_two 0] is true although 0 is no power of two, so the
    assertion of [align] lets alignment 0 through: [align p 0] never
    traps. *)
Theorem is_power_of_two_accepts_zero :
  is_power_of_two 0 = true /\
  (forall n : nat, 2 ^ Z.of_nat n <> 0) /\
  (forall p, align p 0 <> Trap).
Proof.
  split; [apply is_power_of_two_0 |]. split.
  - intros n. apply Z.pow_nonzero; lia.
  - intros p. unfold align. rewrite is_power_of_two_0. discriminate.
Qed.

(** C6 (amended): for every address and every power of two [2 ^ k] with
    [address + 2 ^ k <= 2 ^ word_bits], [align] returns the least multiple
    of the alignment that is not below the address.  [align] is a function
    of its two arguments alone: it takes no store and returns none. *)
Theorem align_rounds_up address k :
  0 <= address -> 0 <= k < word_bits -> address + 2 ^ k <= modulus ->
  exists r, align address (2 ^ k) = Done r /\ rounds_up address (2 ^ k) r.
Proof.
  intros Ha Hk Hfit. pose proof (pow2_bounds ptr_bytes k Hk) as Hb.
  pose proof (Z.mod_pos_bound (- address) (2 ^ k) ltac:(lia)) as Hpad.
  exists (address + (- address) mod 2 ^ k). split.
  - rewrite align_pow2_word by (assumption || (split; lia)).
    f_equal. apply wrap_small. lia.
  - split; [lia |]. split; [apply round_up_mod; lia |].
    intros v Hv Hvm.
    pose proof (round_up_mod address (2 ^ k) ltac:(lia)) as Hrm.
    apply Z.mod_divide in Hvm; [| lia]. destruct Hvm as [t Ht].
    apply Z.mod_divide in Hrm; [| lia]. destruct Hrm as [u Hu].
    rewrite Hu, Ht. apply Z.mul_le_mono_nonneg_r; [lia |].
    assert (u * 2 ^ k < (t + 1) * 2 ^ k) by lia.
    assert (u < t + 1) by (apply Z.mul_lt_mono_pos_r with (p := 2 ^ k); lia).
    lia.
Qed.

(** Above that bound the sum wraps and [align] returns 0. *)
Lemma align_wraps address k :
  in_word address -> 0 <= k < word_bits -> modulus < address + 2 ^ k ->
  align address (2 ^ k) = Done 0.
Proof.
  intros [Ha HaM] Hk Hover. pose proof (pow2_bounds ptr_bytes k Hk) as Hb.
  pose proof (Z.mod_pos_bound (- address) (2 ^ k) ltac:(lia)) as Hpad.
  rewrite align_pow2_word by (assumption || (split; lia)). f_equal.
  pose proof (round_up_fits address k Hk ltac:(lia)) as Hfit.
  pose proof (round_up_mod address (2 ^ k) ltac:(lia)) as Hrm.
  apply Z.mod_divide in Hrm; [| lia]. destruct Hrm as [u Hu].
  pose proof (modulus_split ptr_bytes k Hk) as HM.
  set (q := 2 ^ (word_bits - k)) in *.
  assert (Hq : (q - 1) * 2 ^ k < u * 2 ^ k) by lia.
  assert (q - 1 < u) by (apply Z.mul_lt_mono_pos_r with (p := 2 ^ k); lia).
  assert (u * 2 ^ k <= q * 2 ^ k) by lia.
  assert (u <= q) by (apply Z.mul_le_mono_pos_r with (p := 2 ^ k); lia).
  assert (u = q) by lia. subst u.
  rewrite Hu, <- HM. replace modulus with (0 + modulus) at 1 by lia.
  rewrite wrap_add_modulus. apply wrap_small. pose proof (modulus_pos ptr_bytes). lia.
Qed.

(** ** Allocation *)

(** C4: when [arena_alloc_align] grants a request whose alignment is a
    power of two, the address it returns, [buffer] plus the aligned offset,
    is a multiple of the alignment. *)
Theorem arena_alloc_align_aligned arena size k h p h' :
  0 <= k < word_bits ->
  arena_alloc_align arena size (2 ^ k) h = Done (Some p, h') ->
  (exists A o, arenas h !! arena = Some A /\
               aligned_offset A (2 ^ k) = Done o /\
               p = wrap (buffer A + o)) /\
  p mod 2 ^ k = 0.
Proof.
  intros Hk H.
  apply arena_alloc_align_granted in H as (A & o & HA & Ho & _ & -> & _).
  split; [exists A, o; auto |].
  apply (aligned_offset_congruent A k o Hk Ho).
Qed.

(** C3: after a call of [arena_alloc_align] that grants [size] bytes at
    [p], each of the bytes [p], ..., [p + size - 1] is zero. *)
Theorem arena_alloc_align_zeroed arena size alignment h p h' :
  arena_alloc_align arena size alignment h = Done (Some p, h') ->
  forall i, 0 <= i < size -> bytes h' (p + i) = Byte.x00.
Proof.
  intros H i Hi.
  apply arena_alloc_align_granted in H as (A & o & _ & _ & _ & Hp & ->).
  cbn [bytes]. unfold fill.
  destruct (Z.leb_spec p (p + i)); [| lia].
  destruct (Z.ltb_spec (p + i) (p + size)); [reflexivity | lia].
Qed.

(** The bytes outside the granted range keep their values. *)
Lemma arena_alloc_align_frame arena size alignment h p h' :
  arena_alloc_align arena size alignment h = Done (Some p, h') ->
  forall addr, addr < p \/ p + size <= addr -> bytes h' addr = bytes h addr.
Proof.
  intros H addr Haddr.
  apply arena_alloc_align_granted in H as (A & o & _ & _ & _ & Hp & ->).
  cbn [bytes]. unfold fill.
  destruct (Z.leb_spec p addr); [| reflexivity].
  destruct (Z.ltb_spec addr (p + size)); [lia | reflexivity].
Qed.

(** When the exact sum exceeds the capacity and is still a word, the
    request is refused and the heap is the one before the call. *)
Lemma arena_alloc_align_insufficient arena size alignment h A o :
  arenas h !! arena = Some A ->
  aligned_offset A alignment = Done o ->
  0 <= size ->
  buffer_length A < o + size < modulus ->
  arena_alloc_align arena size alignment h = Done (None, h).
Proof.
  intros HA Ho Hs Hgt.
  apply (arena_alloc_align_full arena size alignment h A o HA Ho).
  pose proof (aligned_offset_word A alignment o Ho) as [Ho0 _].
  rewrite wrap_small; lia.
Qed.

(** A request whose exact sum does not exceed the capacity of a well
    placed arena keeps its [memset] within the buffer. *)
Lemma within_object_fits A o size :
  well_placed A -> 0 <= o -> 0 <= size ->
  o + size <= buffer_length A ->
  within_object (buffer A) (buffer_length A) (wrap (buffer A + o)) size = true.
Proof.
  intros (Hb & Hl & Hfit) Ho Hs Hle. unfold within_object.
  destruct (Z.eqb_spec size 0) as [-> | Hne]; [reflexivity |].
  cbn [orb]. rewrite wrap_small by lia.
  apply andb_true_iff. split; apply Z.leb_le; lia.
Qed.

(** A call that returns a pointer did not overflow in its capacity check:
    the exact sum of the aligned offset and the size is within the
    capacity. *)
Lemma arena_alloc_align_granted_exact arena size alignment h A p h' :
  arenas h !! arena = Some A ->
  0 <= buffer_length A < modulus -> 0 <= size ->
  arena_alloc_align arena size alignment h = Done (Some p, h') ->
  exists o,
    aligned_offset A alignment = Done o /\
    o + size <= buffer_length A /\
    p = wrap (buffer A + o).
Proof.
  intros HA Hl Hs H.
  destruct (arena_alloc_align_granted_within _ _ _ _ _ _ H) as (A1 & HA1 & Hin).
  apply arena_alloc_align_granted in H as (A2 & o & HA2 & Ho & Hle & Hp & _).
  rewrite HA in HA1, HA2. injection HA1 as <-. injection HA2 as <-.
  exists o. split; [assumption |]. split; [| assumption].
  subst p.
  apply (within_object_exact A o size
           (aligned_offset_word A alignment o Ho) Hl Hs Hin Hle).
Qed.

(** A request with a power of two for alignment, on an arena in order,
    when the exact sum of the aligned offset and the size is a word. *)
Lemma arena_alloc_align_pow2 arena h A size k :
  arenas h !! arena = Some A ->
  well_placed A -> cursor_in_bounds A -> 0 <= k < word_bits -> 0 <= size ->
  let o := current_offset A + (- (buffer A + current_offset A)) mod 2 ^ k in
  o + size < modulus ->
  arena_alloc_align arena size (2 ^ k) h =
    if o + size <=? buffer_length A then
      Done (Some (wrap (buffer A + o)),
            {| arenas := <[arena := bump A o size]> (arenas h);
               bytes := fill (bytes h) (wrap (buffer A + o)) Byte.x00 size |})
    else Done (None, h).
Proof.
  intros HA Hw Hc Hk Hs o Hsum.
  destruct (aligned_offset_pow2 A k Hw Hc Hk) as (Ho & Hpad & _).
  fold o in Ho.
  assert (Hexact : wrap (o + size) = o + size).
  { apply wrap_small. destruct Hc. unfold o. lia. }
  destruct (Z.leb_spec (o + size) (buffer_length A)) as [Hle | Hgt].
  - apply (arena_alloc_align_fits arena size _ h A o HA Ho); [lia |].
    apply within_object_fits; [assumption | destruct Hc; unfold o; lia | lia | lia].
  - apply (arena_alloc_align_full arena size _ h A o HA Ho). lia.
Qed.


End Allocation.

(** * Checkpoints *)

Section Checkpoints.

Variable ptr_bytes : positive.

Local Abbreviation arena_alloc_align := (arena_alloc_align ptr_bytes).
Local Abbreviation arena_alloc := (arena_alloc ptr_bytes).

Lemma set_offsets_same A :
  set_offsets A (previous_offset A) (current_offset A) = A.
Proof. destruct A. reflexivity. Qed.

(** Restoring a checkpoint on the heap it was taken from gives that heap
    back. *)
Lemma arena_restore_create_checkpoint arena h cp :
  arena_create_checkpoint arena h = Done cp -> arena_restore cp h = Done h.
Proof.
  unfold arena_create_checkpoint, arena_restore.
  destruct (deref arena h) as [A | | |] eqn:HA; cbn [mbind outcome_bind];
    intros H; try discriminate.
  injection H as <-. cbn [cp_arena cp_previous_offset cp_current_offset].
  rewrite HA. cbn [mbind outcome_bind].
  rewrite set_offsets_same.
  apply deref_done in HA. rewrite (insert_id _ _ _ HA).
  destruct h. reflexivity.
Qed.

(** C7: [arena_restore (arena_create_checkpoint arena)] with nothing in
    between returns, leaves [previous_offset] and [current_offset] as they
    were, and the next allocation does what it would have done without the
    pair of calls. *)
Theorem restore_checkpoint_noop arena h cp :
  arena_create_checkpoint arena h = Done cp ->
  exists h',
    arena_restore cp h = Done h' /\
    offsets arena h' = offsets arena h /\
    (forall size alignment,
        arena_alloc_align arena size alignment h' =
        arena_alloc_align arena size alignment h) /\
    (forall size, arena_alloc arena size h' = arena_alloc arena size h).
Proof.
  intros Hcp. exists h.
  split; [apply (arena_restore_create_checkpoint arena h cp Hcp) |].
  repeat split.
Qed.

End Checkpoints.

(** * Sequences of allocations *)

Section Sequences.

Variable ptr_bytes : positive.

Local Abbreviation word_bits := (word_bits ptr_bytes).
Local Abbreviation modulus := (modulus ptr_bytes).
Local Abbreviation wrap := (wrap ptr_bytes).
Local Abbreviation in_word := (in_word ptr_bytes).
Local Abbreviation aligned_offset := (aligned_offset ptr_bytes).
Local Abbreviation bump := (bump ptr_bytes).
Local Abbreviation arena_alloc_align := (arena_alloc_align ptr_bytes).
Local Abbreviation allocate := (allocate ptr_bytes).
Local Abbreviation allocations := (allocations ptr_bytes).
Local Abbreviation well_placed := (well_placed ptr_bytes).
Local Abbreviation request_in_word := (request_in_word ptr_bytes).
Local Abbreviation request_alignment := (request_alignment ptr_bytes).
Local Abbreviation DEFAULT_ALIGNMENT := (DEFAULT_ALIGNMENT ptr_bytes).

Lemma DEFAULT_ALIGNMENT_word : in_word DEFAULT_ALIGNMENT.
Proof.
  unfold in_word, DEFAULT_ALIGNMENT, modulus, word_bits.
  pose proof (Z.pow_gt_lin_r 2 (8 * Z.pos ptr_bytes) ltac:(lia) ltac:(lia)).
  lia.
Qed.

Lemma allocate_unfold arena r h :
  allocate arena r h =
  arena_alloc_align arena (request_size r) (request_alignment r) h.
Proof. destruct r; reflexivity. Qed.

Lemma request_in_word_parts r :
  request_in_word r -> in_word (request_size r) /\ in_word (request_alignment r).
Proof.
  destruct r as [size alignment | size]; cbn; [tauto |].
  intros H. split; [assumption | apply DEFAULT_ALIGNMENT_word].
Qed.

(** One granted request on an arena in order: the region starts at the
    aligned offset, at or after the cursor, and the arena is bumped. *)
Lemma allocate_granted arena r h A p h' :
  arenas h !! arena = Some A ->
  well_placed A -> cursor_in_bounds A -> request_in_word r ->
  allocate arena r h = Done (Some p, h') ->
  exists o,
    current_offset A <= o < modulus /\
    wrap (p - buffer A) = o /\
    wrap (o + request_size r) <= buffer_length A /\
    arenas h' !! arena = Some (bump A o (request_size r)).
Proof.
  intros HA Hw Hc Hr H.
  apply request_in_word_parts in Hr as [Hs Hal].
  rewrite allocate_unfold in H.
  apply arena_alloc_align_granted in H as (A' & o & HA' & Ho & Hle & -> & ->).
  rewrite HA in HA'. injection HA' as <-.
  exists o. split; [apply (aligned_offset_ge _ A _ o Hw Hc Hal Ho) |].
  split; [| split; [assumption |]].
  - rewrite wrap_wrap_sub_l.
    replace (buffer A + o - buffer A) with o by lia.
    apply wrap_small. apply (aligned_offset_word _ A _ o Ho).
  - cbn [arenas]. apply lookup_insert_eq.
Qed.

Lemma bump_well_placed A o size : well_placed A -> well_placed (bump A o size).
Proof. intros H. exact H. Qed.

Lemma bump_cursor_in_bounds A o size :
  wrap (o + size) <= buffer_length A -> cursor_in_bounds (bump A o size).
Proof.
  intros H. unfold cursor_in_bounds. cbn.
  pose proof (wrap_range ptr_bytes (o + size)). lia.
Qed.

(** Inversion of one unfolding of [allocations]. *)
Lemma allocations_cons arena r rs h gs A :
  arenas h !! arena = Some A ->
  allocations arena (r :: rs) h = Some gs ->
  exists p h' gs',
    allocate arena r h = Done (Some p, h') /\
    allocations arena rs h' = Some gs' /\
    gs = {| cursor_before := current_offset A;
            start := wrap (p - buffer A);
            span := request_size r |} :: gs'.
Proof.
  intros HA. cbn [allocations]. rewrite HA.
  destruct (allocate arena r h) as [[[p |] h'] | | |]; try discriminate.
  destruct (allocations arena rs h') as [gs' |] eqn:Hrest; cbn;
    try discriminate.
  intros H. injection H as <-. exists p, h', gs'. auto.
Qed.

(** No grant has a negative aligned size, so neither has a sequence. *)
Lemma total_aligned_size_nonneg arena rs :
  forall h A gs,
    arenas h !! arena = Some A ->
    well_placed A -> cursor_in_bounds A -> Forall request_in_word rs ->
    allocations arena rs h = Some gs ->
    0 <= total_aligned_size gs.
Proof.
  induction rs as [| r rs IH]; intros h A gs HA Hw Hc Hrs Hgs.
  - injection Hgs as <-. cbn. lia.
  - inversion Hrs as [| ? ? Hr Hrs']; subst.
    destruct (allocations_cons arena r rs h gs A HA Hgs)
      as (p & h' & gs' & Hal & Hrest & ->).
    destruct (allocate_granted arena r h A p h' HA Hw Hc Hr Hal)
      as (o & Ho & Hstart & Hle & HA').
    pose proof (IH h' _ gs' HA' (bump_well_placed A o _ Hw)
                   (bump_cursor_in_bounds A o _ Hle) Hrs' Hrest) as Htail.
    apply request_in_word_parts in Hr as [[Hs0 _] _].
    cbn [total_aligned_size foldr]. fold (total_aligned_size gs').
    unfold aligned_size. cbn [start span cursor_before].
    rewrite Hstart. lia.
Qed.

(** The layout of the regions of a sequence that fits: each lies between
    the cursor at the start and the end of the buffer, and each ends before
    the later ones start. *)
Lemma allocations_layout arena rs :
  forall h A gs,
    arenas h !! arena = Some A ->
    well_placed A -> cursor_in_bounds A -> Forall request_in_word rs ->
    allocations arena rs h = Some gs ->
    current_offset A + total_aligned_size gs <= buffer_length A ->
    Forall (fun g => current_offset A <= start g /\
                     start g + span g <= buffer_length A) gs /\
    ForallOrdPairs before gs.
Proof.
  induction rs as [| r rs IH]; intros h A gs HA Hw Hc Hrs Hgs Htot.
  - injection Hgs as <-. split; constructor.
  - inversion Hrs as [| ? ? Hr Hrs']; subst.
    destruct (allocations_cons arena r rs h gs A HA Hgs)
      as (p & h' & gs' & Hal & Hrest & ->).
    destruct (allocate_granted arena r h A p h' HA Hw Hc Hr Hal)
      as (o & Ho & Hstart & Hle & HA').
    pose proof (bump_well_placed A o (request_size r) Hw) as Hw'.
    pose proof (bump_cursor_in_bounds A o _ Hle) as Hc'.
    pose proof (total_aligned_size_nonneg arena rs h' _ gs' HA' Hw' Hc' Hrs' Hrest)
      as Htail.
    pose proof (request_in_word_parts r Hr) as [[Hs0 _] _].
    cbn [total_aligned_size foldr] in Htot. fold (total_aligned_size gs') in Htot.
    unfold aligned_size in Htot. cbn [start span cursor_before] in Htot.
    rewrite Hstart in Htot.
    destruct Hc as [Hc0 HcL]. destruct Hw as (Hb & Hl & Hfit).
    assert (Hexact : wrap (o + request_size r) = o + request_size r).
    { apply wrap_small. lia. }
    destruct (IH h' _ gs' HA' Hw' Hc' Hrs' Hrest) as [Hin Hord].
    { cbn [current_offset buffer_length bump]. rewrite Hexact. lia. }
    cbn [current_offset buffer_length bump] in Hin.
    rewrite Hexact in Hin.
    split.
    + constructor.
      * cbn [start span]. rewrite Hstart. lia.
      * eapply Forall_impl; [exact Hin |]. cbn beta. intros g [? ?]. lia.
    + constructor; [| assumption].
      eapply Forall_impl; [exact Hin |]. cbn beta. intros g [? ?].
      unfold before. cbn [start span]. rewrite Hstart. lia.
Qed.

(** ** The invariant along runs without overflow *)

Lemma exact_run_run arena cs s s' :
  exact_run ptr_bytes arena cs s s' -> run ptr_bytes arena cs s = Done s'.
Proof.
  induction 1 as [s | r cs s s1 s2 A HA Hex Hstep Hrun IH
                    | c cs s s1 s2 Hc Hstep Hrun IH].
  - reflexivity.
  - cbn [run]. rewrite Hstep. exact IH.
  - cbn [run]. rewrite Hstep. exact IH.
Qed.

Lemma invariant_cursor A : invariant A -> cursor_in_bounds A.
Proof. intros (H0 & H1 & H2). split; lia. Qed.

(** An allocation whose capacity check does not overflow keeps the
    invariant, granted or refused. *)
Lemma allocate_invariant arena r h A res h' :
  arenas h !! arena = Some A ->
  well_placed A -> invariant A -> exact ptr_bytes r A ->
  allocate arena r h = Done (res, h') ->
  exists A', arenas h' !! arena = Some A' /\
             buffer A' = buffer A /\ buffer_length A' = buffer_length A /\
             invariant A'.
Proof.
  intros HA Hw Hinv [Hr Hex] H.
  pose proof (invariant_cursor A Hinv) as Hc.
  pose proof (request_in_word_parts r Hr) as [[Hs0 _] Hal].
  rewrite allocate_unfold in H.
  destruct res as [p |].
  - apply arena_alloc_align_granted in H as (A1 & o & HA1 & Ho & Hle & _ & ->).
    rewrite HA in HA1. injection HA1 as <-.
    pose proof (aligned_offset_ge _ A _ o Hw Hc Hal Ho) as [Hge _].
    specialize (Hex o Ho). destruct Hc as [Hc0 _].
    assert (Hexact : wrap (o + request_size r) = o + request_size r)
      by (apply wrap_small; lia).
    exists (bump A o (request_size r)).
    split; [cbn [arenas]; apply lookup_insert_eq |].
    split; [reflexivity |]. split; [reflexivity |].
    unfold invariant. cbn [previous_offset current_offset buffer_length bump].
    rewrite Hexact in *. lia.
  - apply arena_alloc_align_refused in H as [-> _].
    exists A. auto.
Qed.

Lemma step_client_ok arena len c s s' :
  client_ok ptr_bytes arena len s ->
  (forall r A, c = Allocate r -> arenas s.1 !! arena = Some A ->
               exact ptr_bytes r A) ->
  step ptr_bytes arena c s = Done s' ->
  client_ok ptr_bytes arena len s'.
Proof.
  intros [(A & HA & Hw & Hlen & Hinv) Hcps] Hex Hstep.
  destruct s as [h cps]. cbn [fst snd] in *.
  destruct c as [r | | | n]; cbn [step fst snd] in Hstep.
  - destruct (allocate arena r h) as [[res h'] | | |] eqn:Hal;
      cbn [mbind outcome_bind] in Hstep; try discriminate.
    injection Hstep as <-. cbn [fst snd].
    destruct (allocate_invariant arena r h A res h' HA Hw Hinv
                (Hex r A eq_refl HA) Hal) as (A' & HA' & Hb & Hl & Hinv').
    split; [| assumption].
    exists A'. split; [assumption |]. split; [| split; [congruence | assumption]].
    unfold well_placed in *. rewrite Hb, Hl. exact Hw.
  - unfold arena_create_checkpoint in Hstep.
    rewrite (proj2 (deref_done arena h A) HA) in Hstep.
    cbn [mbind outcome_bind] in Hstep. injection Hstep as <-.
    split; [exists A; auto |]. cbn [snd].
    apply Forall_app. split; [assumption |].
    constructor; [| constructor].
    cbn. destruct Hinv as (? & ? & ?). repeat split; lia.
  - unfold arena_free in Hstep.
    rewrite (proj2 (deref_done arena h A) HA) in Hstep.
    cbn [mbind outcome_bind] in Hstep. injection Hstep as <-.
    split; [| assumption].
    exists (set_offsets A 0 0). cbn [fst arenas].
    split; [apply lookup_insert_eq |]. split; [exact Hw |].
    split; [exact Hlen |].
    destruct Hw as (_ & Hl0 & _). unfold invariant. cbn. lia.
  - destruct (cps !! n) as [cp |] eqn:Hn; [| discriminate].
    rewrite Forall_lookup in Hcps.
    destruct (Hcps n cp Hn) as (Hcpa & Hp0 & Hpc & Hcl).
    unfold arena_restore in Hstep. rewrite Hcpa in Hstep.
    rewrite (proj2 (deref_done arena h A) HA) in Hstep.
    cbn [mbind outcome_bind] in Hstep. injection Hstep as <-.
    split; [| rewrite Forall_lookup; exact Hcps].
    exists (set_offsets A (cp_previous_offset cp) (cp_current_offset cp)).
    cbn [fst arenas].
    split; [apply lookup_insert_eq |]. split; [exact Hw |].
    split; [exact Hlen |].
    unfold invariant. cbn. lia.
Qed.

Lemma exact_run_client_ok arena len cs s s' :
  exact_run ptr_bytes arena cs s s' ->
  client_ok ptr_bytes arena len s -> client_ok ptr_bytes arena len s'.
Proof.
  induction 1 as [s | r cs s s1 s2 A HA Hex Hstep Hrun IH
                    | c cs s s1 s2 Hc Hstep Hrun IH]; intros Hok.
  - exact Hok.
  - apply IH.
    apply (step_client_ok arena len (Allocate r) s s1 Hok); [| assumption].
    intros r' A' Heq HA'. injection Heq as <-.
    rewrite HA in HA'. injection HA' as <-. assumption.
  - apply IH. apply (step_client_ok arena len c s s1 Hok); [| assumption].
    intros r A Heq _. destruct (Hc r Heq).
Qed.

(** Runs whose capacity checks do not overflow keep the invariant
    [0 <= previous_offset <= current_offset <= buffer_length], from
    [arena_init] on, through allocations, checkpoints, resets and the
    restoring of checkpoints taken on the way. *)
Lemma exact_run_invariant arena buf len h cs s' :
  0 < buf -> 0 <= len -> buf + len <= modulus ->
  exact_run ptr_bytes arena cs (arena_init arena buf len h, nil) s' ->
  exists A, arenas s'.1 !! arena = Some A /\ invariant A.
Proof.
  intros Hb Hl Hfit Hrun.
  apply (exact_run_client_ok arena len) in Hrun.
  - destruct Hrun as [(A & HA & _ & _ & Hinv) _]. exists A. auto.
  - split; [| constructor].
    eexists. split; [apply lookup_insert_eq |].
    split; [repeat split; assumption |]. split; [reflexivity |].
    unfold invariant. cbn. lia.
Qed.

Lemma ForallOrdPairs_lookup {X : Type} (R : X -> X -> Prop) (l : list X) :
  ForallOrdPairs R l ->
  forall i j a b, (i < j)%nat -> l !! i = Some a -> l !! j = Some b -> R a b.
Proof.
  induction 1 as [| x l Hx Hl IH]; intros i j a b Hij Hi Hj.
  - rewrite lookup_nil in Hi. discriminate.
  - destruct j as [| j]; [lia |]. cbn in Hj.
    destruct i as [| i]; cbn in Hi.
    + injection Hi as <-. rewrite Forall_lookup in Hx. exact (Hx j b Hj).
    + apply (IH i j a b); [lia | assumption | assumption].
Qed.

(** C1: after [arena_init] over a buffer of [len] bytes at [buf], for every
    sequence of requests that are all granted and whose aligned sizes sum
    to at most [len], every region ends within the buffer and any two of
    the regions are disjoint. *)
Theorem allocations_disjoint_in_buffer arena buf len h rs gs :
  0 < buf -> 0 <= len -> buf + len <= modulus ->
  Forall request_in_word rs ->
  allocations arena rs (arena_init arena buf len h) = Some gs ->
  total_aligned_size gs <= len ->
  Forall (in_buffer len) gs /\
  forall i j g1 g2,
    i <> j -> gs !! i = Some g1 -> gs !! j = Some g2 -> disjoint g1 g2.
Proof.
  intros Hb Hl Hfit Hrs Hgs Htot.
  set (A := {| buffer := buf; buffer_length := len;
               previous_offset := 0; current_offset := 0 |}).
  assert (HA : arenas (arena_init arena buf len h) !! arena = Some A)
    by (cbn [arena_init arenas]; apply lookup_insert_eq).
  assert (Hw : well_placed A) by (repeat split; assumption).
  assert (Hc : cursor_in_bounds A) by (split; cbn; lia).
  destruct (allocations_layout arena rs _ A gs HA Hw Hc Hrs Hgs) as [Hin Hord].
  { cbn [current_offset buffer_length A]. lia. }
  cbn [current_offset buffer_length A] in Hin.
  split; [exact Hin |].
  intros i j g1 g2 Hij H1 H2.
  destruct (Nat.lt_total i j) as [Hlt | [Heq | Hgt]]; [| contradiction |].
  - left. exact (ForallOrdPairs_lookup before gs Hord i j g1 g2 Hlt H1 H2).
  - right. exact (ForallOrdPairs_lookup before gs Hord j i g2 g1 Hgt H2 H1).
Qed.

End Sequences.

(** * The 64-bit target *)

Lemma modulus_LP64 : modulus LP64 = 18446744073709551616.
Proof. reflexivity. Qed.

Lemma wrap_LP64_small x : 0 <= x < 18446744073709551616 -> wrap LP64 x = x.
Proof. intros H. apply wrap_small. rewrite modulus_LP64. exact H. Qed.

(** [arena_alloc] on a buffer of 64 bytes at a multiple of 16. *)
Lemma arena_alloc_16 arena h A size :
  arenas h !! arena = Some A ->
  buffer A mod 16 = 0 -> 0 < buffer A -> buffer_length A = 64 ->
  buffer A + 64 <= 18446744073709551616 ->
  0 <= current_offset A <= 64 -> 0 < size <= 64 ->
  let o := current_offset A + (- current_offset A) mod 16 in
  arena_alloc LP64 arena size h =
    if o + size <=? 64 then
      Done (Some (buffer A + o),
            {| arenas := <[arena := {| buffer := buffer A;
                                       buffer_length := 64;
                                       previous_offset := o;
                                       current_offset := o + size |}]> (arenas h);
               bytes := fill (bytes h) (buffer A + o) Byte.x00 size |})
    else Done (None, h).
Proof.
  intros HA Hmod Hb Hlen Hfit Hc Hs o.
  assert (Hpad : (- (buffer A + current_offset A)) mod 2 ^ 4
                 = (- current_offset A) mod 16).
  { change (2 ^ 4) with 16. Z.div_mod_to_equations. lia. }
  assert (Ho : 0 <= (- current_offset A) mod 16 < 16)
    by (apply Z.mod_pos_bound; lia).
  unfold arena_alloc. change (DEFAULT_ALIGNMENT LP64) with (2 ^ 4).
  rewrite (arena_alloc_align_pow2 LP64 arena h A size 4 HA).
  - rewrite Hpad, Hlen. fold o.
    destruct (Z.leb_spec (o + size) 64) as [Hle | Hgt]; [| reflexivity].
    unfold bump. rewrite Hlen.
    rewrite (wrap_LP64_small (buffer A + o)) by (unfold o in *; lia).
    rewrite (wrap_LP64_small (o + size)) by (unfold o in *; lia).
    reflexivity.
  - unfold well_placed. rewrite modulus_LP64, Hlen. lia.
  - unfold cursor_in_bounds. rewrite Hlen. lia.
  - unfold word_bits, LP64. lia.
  - lia.
  - rewrite Hpad, modulus_LP64. lia.
Qed.

Lemma offsets_insert arena m b A :
  offsets arena {| arenas := <[arena := A]> m; bytes := b |}
  = Some (previous_offset A, current_offset A).
Proof. unfold offsets. cbn [arenas]. rewrite lookup_insert_eq. reflexivity. Qed.

(** C8 (amended): on a 64-byte buffer whose address is a multiple of 16,
    with 8-byte pointers and so default alignment 16, the scenario of the
    specification runs as stated. *)
Theorem scenario_aligned_base arena base h :
  base mod 16 = 0 -> 0 < base -> base + 64 <= 18446744073709551616 ->
  scenario arena base h.
Proof.
  intros Hmod Hb Hfit. unfold scenario.
  set (A0 := {| buffer := base; buffer_length := 64;
                previous_offset := 0; current_offset := 0 |}).
  set (A1 := {| buffer := base; buffer_length := 64;
                previous_offset := 0; current_offset := 10 |}).
  set (A2 := {| buffer := base; buffer_length := 64;
                previous_offset := 16; current_offset := 21 |}).
  set (A3 := {| buffer := base; buffer_length := 64;
                previous_offset := 32; current_offset := 62 |}).
  set (hi := arena_init arena base 64 h).
  set (h1 := {| arenas := <[arena := A1]> (arenas hi);
                bytes := fill (bytes hi) (base + 0) Byte.x00 10 |}).
  set (h2 := {| arenas := <[arena := A2]> (arenas h1);
                bytes := fill (bytes h1) (base + 16) Byte.x00 5 |}).
  set (h6 := {| arenas := <[arena := A3]> (arenas h2);
                bytes := fill (bytes h2) (base + 32) Byte.x00 30 |}).
  assert (H0 : arenas hi !! arena = Some A0) by apply lookup_insert_eq.
  assert (H1 : arenas h1 !! arena = Some A1) by apply lookup_insert_eq.
  assert (H2 : arenas h2 !! arena = Some A2) by apply lookup_insert_eq.
  exists h1, h2,
    {| cp_arena := arena; cp_previous_offset := 16; cp_current_offset := 21 |},
    h2, h2, h2, h6.
  repeat apply conj.
  - rewrite (arena_alloc_16 arena hi A0 10 H0); cbn; try lia; reflexivity.
  - apply offsets_insert.
  - rewrite (arena_alloc_16 arena h1 A1 5 H1); cbn; try lia; reflexivity.
  - apply offsets_insert.
  - unfold arena_create_checkpoint.
    rewrite (proj2 (deref_done arena h2 A2) H2). reflexivity.
  - reflexivity.
  - rewrite (arena_alloc_16 arena h2 A2 50 H2); cbn; try lia; reflexivity.
  - apply offsets_insert.
  - apply (arena_restore_create_checkpoint arena h2).
    unfold arena_create_checkpoint.
    rewrite (proj2 (deref_done arena h2 A2) H2). reflexivity.
  - apply offsets_insert.
  - rewrite (arena_alloc_16 arena h2 A2 40 H2); cbn; try lia; reflexivity.
  - apply offsets_insert.
  - rewrite (arena_alloc_16 arena h2 A2 30 H2); cbn; try lia; reflexivity.
  - apply offsets_insert.
Qed.

(** C8 fails on a 64-byte buffer at an address that is no multiple of 16:
    at address 4097 the first allocation is placed at offset 15. *)
Lemma scenario_unaligned_base : ~ scenario 1 4097 no_arenas.
Proof.
  intros (h1 & h2 & C & h3 & h4 & h5 & h6 & H & _).
  vm_compute in H. discriminate H.
Qed.

Lemma first_allocation_unaligned_base :
  exists h1, arena_alloc LP64 1 10 (arena_init 1 4097 64 no_arenas)
             = Done (Some (4097 + 15), h1).
Proof. eexists. vm_compute. reflexivity. Qed.

(** C6 fails at the top of the address space: the least multiple of 2 that
    is not below [2 ^ 64 - 1] is [2 ^ 64], and [align] returns 0. *)
Lemma align_top_of_memory :
  is_power_of_two LP64 2 = true /\
  align LP64 (2 ^ 64 - 1) (2 ^ 1) = Done 0 /\
  ~ exists r, align LP64 (2 ^ 64 - 1) (2 ^ 1) = Done r /\
              rounds_up (2 ^ 64 - 1) (2 ^ 1) r.
Proof.
  split; [reflexivity |]. split; [reflexivity |].
  intros (r & Hr & Hle & _).
  vm_compute in Hr. injection Hr as <-.
  vm_compute in Hle. apply Hle. reflexivity.
Qed.

(** C2 at a size that makes the sum pass [2 ^ 64]: the arena has its cursor
    at 10, the aligned offset is 16, and [16 + huge] exceeds the 64 bytes
    of the buffer; the sum reduced to [size_t] is 8 and passes the check,
    the code stores the offsets 16 and 8 over 0 and 10, and its [memset] of
    [huge] bytes leaves the buffer: the call does not return [NULL], it
    does not return. *)
Theorem capacity_check_overflow :
  aligned_offset LP64 arena_10 16 = Done 16 /\
  in_word LP64 huge /\
  64 < 16 + huge /\
  offsets 1 heap_10 = Some (0, 10) /\
  wrap LP64 (16 + huge) = 8 /\
  arena_alloc_align LP64 1 huge 16 heap_10
  = Fault {| buffer := 4096; buffer_length := 64;
             previous_offset := 16; current_offset := 8 |}.
Proof.
  split; [reflexivity |]. split; [split; [discriminate | reflexivity] |].
  split; [reflexivity |]. split; [reflexivity |]. split; [reflexivity |].
  rewrite (arena_alloc_align_faults LP64 1 huge 16 heap_10 arena_10 16).
  - reflexivity.
  - reflexivity.
  - reflexivity.
  - discriminate.
  - reflexivity.
Qed.


(** The run that would break the invariant does not come back from its
    second allocation. *)
Lemma overflowing_run_faults :
  run LP64 1 (Allocate (Alloc 10) :: Allocate (Alloc huge) :: nil)
      (arena_init 1 4096 64 no_arenas, nil)
  = Fault {| buffer := 4096; buffer_length := 64;
             previous_offset := 16; current_offset := 8 |}.
Proof. vm_compute. reflexivity. Qed.

Section Invariant.

Variable ptr_bytes : positive.

Local Abbreviation modulus := (modulus ptr_bytes).
Local Abbreviation wrap := (wrap ptr_bytes).
Local Abbreviation in_word := (in_word ptr_bytes).
Local Abbreviation bump := (bump ptr_bytes).
Local Abbreviation allocate := (allocate ptr_bytes).
Local Abbreviation request_in_word := (request_in_word ptr_bytes).
Local Abbreviation call_in_word := (call_in_word ptr_bytes).
Local Abbreviation step := (step ptr_bytes).
Local Abbreviation run := (run ptr_bytes).

(** An allocation that returns keeps the invariant: a pointer comes back
    only when the [memset] stayed within the buffer, and then the capacity
    check did not overflow. *)
Lemma allocate_keeps_invariant arena r h A res h' :
  arenas h !! arena = Some A ->
  in_word (buffer_length A) -> invariant A -> request_in_word r ->
  allocate arena r h = Done (res, h') ->
  exists A', arenas h' !! arena = Some A' /\
             buffer_length A' = buffer_length A /\
             invariant A'.
Proof.
  intros HA Hl Hinv Hr H.
  pose proof (request_in_word_parts ptr_bytes r Hr) as [[Hs0 _] _].
  rewrite allocate_unfold in H.
  destruct res as [p |].
  - destruct (arena_alloc_align_granted_exact ptr_bytes arena _ _ h A p h'
                HA Hl Hs0 H) as (o & Ho & Hle & _).
    apply arena_alloc_align_granted in H as (A1 & o1 & HA1 & Ho1 & _ & _ & ->).
    rewrite HA in HA1. injection HA1 as <-.
    rewrite Ho in Ho1. injection Ho1 as <-.
    pose proof (aligned_offset_word ptr_bytes A _ o Ho) as [Ho0 _].
    destruct Hl as [Hl0 HlM].
    assert (Hexact : wrap (o + request_size r) = o + request_size r)
      by (apply wrap_small; lia).
    exists (bump A o (request_size r)).
    split; [cbn [arenas]; apply lookup_insert_eq |].
    split; [reflexivity |].
    unfold invariant. cbn [previous_offset current_offset buffer_length bump].
    rewrite Hexact. lia.
  - apply arena_alloc_align_refused in H as [-> _].
    exists A. auto.
Qed.

Lemma step_client_invariant arena len c s s' :
  in_word len -> call_in_word c ->
  client_invariant arena len s ->
  step arena c s = Done s' ->
  client_invariant arena len s'.
Proof.
  intros Hlen Hc [(A & HA & Hl & Hinv) Hcps] Hstep.
  destruct s as [h cps]. cbn [fst snd] in *.
  destruct c as [r | | | n]; cbn [step fst snd] in Hstep.
  - destruct (allocate arena r h) as [[res h'] | | |] eqn:Hal;
      cbn [mbind outcome_bind] in Hstep; try discriminate.
    injection Hstep as <-. cbn [fst snd].
    destruct (allocate_keeps_invariant arena r h A res h' HA
                ltac:(rewrite Hl; exact Hlen) Hinv Hc Hal)
      as (A' & HA' & Hl' & Hinv').
    split; [| assumption].
    exists A'. split; [assumption |]. split; [congruence | assumption].
  - unfold arena_create_checkpoint in Hstep.
    rewrite (proj2 (deref_done arena h A) HA) in Hstep.
    cbn [mbind outcome_bind] in Hstep. injection Hstep as <-.
    split; [exists A; auto |]. cbn [snd].
    apply Forall_app. split; [assumption |].
    constructor; [| constructor].
    cbn. destruct Hinv as (? & ? & ?). repeat split; lia.
  - unfold arena_free in Hstep.
    rewrite (proj2 (deref_done arena h A) HA) in Hstep.
    cbn [mbind outcome_bind] in Hstep. injection Hstep as <-.
    split; [| assumption].
    exists (set_offsets A 0 0). cbn [fst arenas].
    split; [apply lookup_insert_eq |]. split; [exact Hl |].
    destruct Hlen as [Hl0 _]. unfold invariant. cbn. lia.
  - destruct (cps !! n) as [cp |] eqn:Hn; [| discriminate].
    rewrite Forall_lookup in Hcps.
    destruct (Hcps n cp Hn) as (Hcpa & Hp0 & Hpc & Hcl).
    unfold arena_restore in Hstep. rewrite Hcpa in Hstep.
    rewrite (proj2 (deref_done arena h A) HA) in Hstep.
    cbn [mbind outcome_bind] in Hstep. injection Hstep as <-.
    split; [| rewrite Forall_lookup; exact Hcps].
    exists (set_offsets A (cp_previous_offset cp) (cp_current_offset cp)).
    cbn [fst arenas].
    split; [apply lookup_insert_eq |]. split; [exact Hl |].
    unfold invariant. cbn. lia.
Qed.

Lemma run_client_invariant arena len cs :
  in_word len -> Forall call_in_word cs ->
  forall s s',
    client_invariant arena len s ->
    run arena cs s = Done s' ->
    client_invariant arena len s'.
Proof.
  intros Hlen Hcs. induction Hcs as [| c cs Hc Hcs IH]; intros s s' Hok Hrun.
  - injection Hrun as <-. exact Hok.
  - cbn [run] in Hrun.
    destruct (step arena c s) as [s1 | | |] eqn:Hstep;
      cbn [mbind outcome_bind] in Hrun; try discriminate.
    apply (IH s1 s'); [| exact Hrun].
    apply (step_client_invariant arena len c s s1 Hlen Hc Hok Hstep).
Qed.

(** C5: [arena_init] establishes [0 <= previous_offset <= current_offset
    <= buffer_length], and the invariant holds after every run of
    [arena_alloc_align], [arena_alloc], [arena_create_checkpoint],
    [arena_free] and [arena_restore] of checkpoints taken in the run: the
    state between two operations is the state after a run that
    returned. *)
Theorem run_invariant arena buf len h cs s' :
  in_word len -> Forall call_in_word cs ->
  run arena cs (arena_init arena buf len h, nil) = Done s' ->
  exists A,
    arenas s'.1 !! arena = Some A /\
    buffer_length A = len /\
    invariant A.
Proof.
  intros Hlen Hcs Hrun.
  apply (run_client_invariant arena len cs Hlen Hcs) in Hrun.
  - destruct Hrun as [HA _]. exact HA.
  - split; [| constructor].
    eexists. split; [apply lookup_insert_eq |].
    split; [reflexivity |].
    destruct Hlen as [Hl0 _]. unfold invariant. cbn. lia.
Qed.

End Invariant.

(** * Instances of the theorems on the 64-bit target *)

Lemma word_LP64 x : 0 <= x < 18446744073709551616 -> in_word LP64 x.
Proof. intros H. unfold in_word. rewrite modulus_LP64. exact H. Defined.

Lemma align_rounds_up_witness :
  exists r, align LP64 10 (2 ^ 4) = Done r /\ rounds_up 10 (2 ^ 4) r.
Proof.
  apply (align_rounds_up LP64 10 4).
  - lia.
  - unfold word_bits, LP64. lia.
  - rewrite modulus_LP64. lia.
Defined.

Lemma arena_alloc_align_aligned_witness :
  arena_alloc_align LP64 1 5 (2 ^ 4) heap_10 = Done (Some 4112, heap_15) /\
  4112 mod 2 ^ 4 = 0.
Proof.
  assert (H : arena_alloc_align LP64 1 5 (2 ^ 4) heap_10
              = Done (Some 4112, heap_15)) by reflexivity.
  split; [exact H |].
  refine (proj2 (arena_alloc_align_aligned LP64 1 5 4 heap_10 4112 heap_15 _ H)).
  unfold word_bits, LP64. lia.
Defined.

Lemma arena_alloc_align_zeroed_witness :
  arena_alloc_align LP64 1 5 16 heap_10 = Done (Some 4112, heap_15) /\
  bytes heap_15 (4112 + 4) = Byte.x00.
Proof.
  assert (H : arena_alloc_align LP64 1 5 16 heap_10
              = Done (Some 4112, heap_15)) by reflexivity.
  split; [exact H |].
  apply (arena_alloc_align_zeroed LP64 1 5 16 heap_10 4112 heap_15 H 4). lia.
Defined.


Lemma run_invariant_witness :
  exists s' A,
    run LP64 1 scoped_calls (arena_init 1 4096 64 no_arenas, nil) = Done s' /\
    arenas s'.1 !! 1 = Some A /\
    buffer_length A = 64 /\
    invariant A.
Proof.
  assert (H : {s' | run LP64 1 scoped_calls (arena_init 1 4096 64 no_arenas, nil)
                    = Done s'}) by (eexists; reflexivity).
  destruct H as [s' H]. exists s'.
  destruct (run_invariant LP64 1 4096 64 no_arenas scoped_calls s')
    as (A & HA).
  - apply word_LP64. lia.
  - repeat constructor; apply word_LP64; lia.
  - exact H.
  - exists A. split; [exact H | exact HA].
Defined.

Lemma restore_checkpoint_noop_witness :
  arena_create_checkpoint 1 heap_10 = Done checkpoint_10 /\
  exists h',
    arena_restore checkpoint_10 heap_10 = Done h' /\
    offsets 1 h' = offsets 1 heap_10.
Proof.
  assert (H : arena_create_checkpoint 1 heap_10 = Done checkpoint_10)
    by reflexivity.
  split; [exact H |].
  destruct (restore_checkpoint_noop LP64 1 heap_10 checkpoint_10 H)
    as (h' & Hr & Ho & _).
  exists h'. split; assumption.
Defined.

Lemma scenario_aligned_base_witness : scenario 1 4096 no_arenas.
Proof.
  apply (scenario_aligned_base 1 4096 no_arenas).
  - reflexivity.
  - lia.
  - lia.
Defined.

Lemma allocations_disjoint_in_buffer_witness :
  allocations LP64 1 three_requests (arena_init 1 4096 64 no_arenas)
    = Some three_grants /\
  total_aligned_size three_grants = 62 /\
  Forall (in_buffer 64) three_grants /\
  disjoint grant_0 grant_2.
Proof.
  assert (H : allocations LP64 1 three_requests (arena_init 1 4096 64 no_arenas)
              = Some three_grants) by (vm_compute; reflexivity).
  split; [exact H |]. split; [reflexivity |].
  assert (Hrs : Forall (request_in_word LP64) three_requests).
  { repeat constructor; apply word_LP64; lia. }
  destruct (allocations_disjoint_in_buffer LP64 1 4096 64 no_arenas
              three_requests three_grants) as [Hin Hdis].
  - lia.
  - lia.
  - rewrite modulus_LP64. lia.
  - exact Hrs.
  - exact H.
  - vm_compute. discriminate.
  - split; [exact Hin |].
    apply (Hdis 0%nat 2%nat); [lia | reflexivity | reflexivity].
Defined.

(** * Further properties of the arena *)

Section Arena.

Variable ptr_bytes : positive.

Local Abbreviation word_bits := (word_bits ptr_bytes).
Local Abbreviation modulus := (modulus ptr_bytes).
Local Abbreviation wrap := (wrap ptr_bytes).
Local Abbreviation in_word := (in_word ptr_bytes).
Local Abbreviation is_power_of_two := (is_power_of_two ptr_bytes).
Local Abbreviation align := (align ptr_bytes).
Local Abbreviation aligned_offset := (aligned_offset ptr_bytes).
Local Abbreviation bump := (bump ptr_bytes).
Local Abbreviation arena_alloc_align := (arena_alloc_align ptr_bytes).
Local Abbreviation arena_alloc := (arena_alloc ptr_bytes).
Local Abbreviation allocate := (allocate ptr_bytes).
Local Abbreviation well_placed := (well_placed ptr_bytes).
Local Abbreviation step := (step ptr_bytes).
Local Abbreviation run := (run ptr_bytes).
Local Abbreviation DEFAULT_ALIGNMENT := (DEFAULT_ALIGNMENT ptr_bytes).

(** ** The alignments that pass the assertion *)

(** The words on which [is_power_of_two] answers true are 0 and the powers
    of two, and no others. *)
Theorem is_power_of_two_iff x :
  in_word x ->
  is_power_of_two x = true <->
  x = 0 \/ exists k, 0 <= k < word_bits /\ x = 2 ^ k.
Proof.
  intros Hx. split.
  - apply is_power_of_two_inv. exact Hx.
  - intros [-> | (k & Hk & ->)].
    + apply is_power_of_two_0.
    + apply is_power_of_two_pow2. exact Hk.
Qed.

Lemma align_aligned p k :
  0 <= k < word_bits -> p mod 2 ^ k = 0 -> align p (2 ^ k) = Done p.
Proof.
  intros Hk Hp. unfold align.
  rewrite is_power_of_two_pow2 by assumption. cbv zeta.
  rewrite land_pred_pow2, Hp by assumption. reflexivity.
Qed.

Lemma align_multiple p k r :
  0 <= k < word_bits -> align p (2 ^ k) = Done r -> r mod 2 ^ k = 0.
Proof.
  intros Hk Hr. pose proof (pow2_bounds ptr_bytes k Hk) as Hb.
  destruct (align_pow2 ptr_bytes p k Hk) as [E | [E Hz]];
    rewrite E in Hr; injection Hr as <-.
  - rewrite wrap_mod_pow2 by assumption. apply round_up_mod. lia.
  - assumption.
Qed.

(** Aligning twice is aligning once: what [align] returns for a power of
    two is left alone by [align], also when the first call wrapped. *)
Theorem align_idempotent p k r :
  0 <= k < word_bits ->
  align p (2 ^ k) = Done r ->
  align r (2 ^ k) = Done r.
Proof.
  intros Hk Hr. apply align_aligned; [assumption |].
  apply (align_multiple p k r Hk Hr).
Qed.

(** ** One allocation *)

(** The padding in front of a granted region is less than the alignment:
    the region starts at or after the cursor and less than [2 ^ k] bytes
    after it. *)
Theorem allocation_padding_bound arena size k h A p h' :
  arenas h !! arena = Some A ->
  well_placed A -> cursor_in_bounds A -> 0 <= k < word_bits ->
  arena_alloc_align arena size (2 ^ k) h = Done (Some p, h') ->
  exists A',
    arenas h' !! arena = Some A' /\
    p = wrap (buffer A + previous_offset A') /\
    current_offset A <= previous_offset A' < current_offset A + 2 ^ k.
Proof.
  intros HA Hw Hc Hk H.
  apply arena_alloc_align_granted in H as (A1 & o & HA1 & Ho & _ & -> & ->).
  rewrite HA in HA1. injection HA1 as <-.
  destruct (aligned_offset_pow2 ptr_bytes A k Hw Hc Hk) as (Heq & Hpad & _).
  rewrite Heq in Ho. injection Ho as <-.
  eexists. split; [cbn [arenas]; apply lookup_insert_eq |].
  cbn [previous_offset bump]. split; [reflexivity |].
  cbn. lia.
Qed.


(** When the exact sum of the aligned offset and the size is a word, the
    request is refused, with the heap as it was, exactly when that sum
    exceeds the capacity. *)
Theorem arena_alloc_align_refused_iff arena size alignment h A o :
  arenas h !! arena = Some A ->
  aligned_offset A alignment = Done o ->
  0 <= size -> o + size < modulus ->
  arena_alloc_align arena size alignment h = Done (None, h) <->
  buffer_length A < o + size.
Proof.
  intros HA Ho Hs Hsum.
  pose proof (aligned_offset_word _ A alignment o Ho) as [Ho0 _].
  assert (Hexact : wrap (o + size) = o + size) by (apply wrap_small; lia).
  split.
  - intros H. apply arena_alloc_align_refused in H as (_ & A1 & o1 & HA1 & Ho1 & Hgt).
    rewrite HA in HA1. injection HA1 as <-.
    rewrite Ho in Ho1. injection Ho1 as <-. lia.
  - intros Hgt.
    apply (arena_alloc_align_insufficient _ arena size alignment h A o HA Ho Hs).
    lia.
Qed.

(** A granted request whose exact sum is a word gets a region inside the
    buffer, and every byte the call changes lies in the buffer. *)
Theorem arena_alloc_align_within_buffer arena size alignment h A o p h' :
  arenas h !! arena = Some A ->
  well_placed A -> cursor_in_bounds A ->
  in_word alignment -> 0 <= size ->
  aligned_offset A alignment = Done o ->
  o + size < modulus ->
  arena_alloc_align arena size alignment h = Done (Some p, h') ->
  (0 < size -> buffer A <= p /\ p + size <= buffer A + buffer_length A) /\
  (forall addr, bytes h' addr <> bytes h addr ->
                buffer A <= addr < buffer A + buffer_length A).
Proof.
  intros HA Hw Hc Hal Hs Ho Hsum H.
  pose proof (aligned_offset_ge _ A alignment o Hw Hc Hal Ho) as [Hge _].
  pose proof (arena_alloc_align_frame _ _ _ _ _ _ _ H) as Hframe.
  apply arena_alloc_align_granted in H as (A1 & o1 & HA1 & Ho1 & Hle & Hp & _).
  rewrite HA in HA1. injection HA1 as <-.
  rewrite Ho in Ho1. injection Ho1 as <-.
  destruct Hc as [Hc0 HcL]. destruct Hw as (Hb & Hl & Hfit).
  rewrite (wrap_small ptr_bytes (o + size)) in Hle by lia.
  assert (Hin : 0 < size -> buffer A <= p /\ p + size <= buffer A + buffer_length A).
  { intros Hpos. rewrite Hp, wrap_small; lia. }
  split; [exact Hin |].
  intros addr Hne.
  destruct (Z.lt_ge_cases addr p) as [Hlt | Hge1];
    [exfalso; apply Hne, Hframe; lia |].
  destruct (Z.le_gt_cases (p + size) addr) as [Hout | Hlt];
    [exfalso; apply Hne, Hframe; lia |].
  destruct (Hin ltac:(lia)). lia.
Qed.

(** With a pointer size that is a power of two the default alignment is a
    power of two as well: [arena_alloc] on an arena of the store never
    stops in the assertion of [align], whatever the size.  It returns a
    pointer or [NULL], or its [memset] leaves the buffer. *)
Theorem arena_alloc_no_trap arena size h A (j : nat) :
  arenas h !! arena = Some A ->
  Z.pos ptr_bytes = 2 ^ Z.of_nat j ->
  arena_alloc arena size h <> Trap /\
  arena_alloc arena size h <> Undefined.
Proof.
  intros HA Hj.
  assert (Hk : 0 <= Z.of_nat j + 1 < word_bits).
  { unfold word_bits. rewrite Hj.
    pose proof (Z.pow_gt_lin_r 2 (Z.of_nat j) ltac:(lia) ltac:(lia)). lia. }
  assert (Hd : DEFAULT_ALIGNMENT = 2 ^ (Z.of_nat j + 1)).
  { unfold DEFAULT_ALIGNMENT. rewrite Hj, Z.pow_add_r by lia. lia. }
  unfold arena_alloc, arena_alloc_align. rewrite Hd.
  rewrite (proj2 (deref_done arena h A) HA). cbn [mbind outcome_bind].
  unfold aligned_offset, align.
  rewrite is_power_of_two_pow2 by assumption. cbn [mbind outcome_bind].
  cbv zeta. unfold memset.
  destruct (_ <=? _); [destruct (within_object _ _ _ _) |];
    split; discriminate.
Qed.

(** ** Runs of calls *)

Lemma step_client_bounded arena buf len c s s' :
  0 <= len ->
  client_bounded arena buf len s ->
  step arena c s = Done s' ->
  client_bounded arena buf len s'.
Proof.
  intros Hlen [(A & HA & Hb & Hl & Hc) Hcps] Hstep.
  destruct s as [h cps]. cbn [fst snd] in *.
  destruct c as [r | | | n]; cbn [step fst snd] in Hstep.
  - rewrite allocate_unfold in Hstep.
    destruct (arena_alloc_align arena _ _ h) as [[[p |] h'] | | |] eqn:Hal;
      cbn [mbind outcome_bind] in Hstep; try discriminate;
      injection Hstep as <-; cbn [fst snd].
    + apply arena_alloc_align_granted in Hal
        as (A1 & o & HA1 & _ & Hle & _ & ->).
      rewrite HA in HA1. injection HA1 as <-.
      split; [| assumption].
      exists (bump A o (request_size r)). cbn [arenas].
      split; [apply lookup_insert_eq |]. split; [exact Hb |].
      split; [exact Hl |]. apply bump_cursor_in_bounds. exact Hle.
    + apply arena_alloc_align_refused in Hal as [-> _].
      split; [exists A; auto | assumption].
  - unfold arena_create_checkpoint in Hstep.
    rewrite (proj2 (deref_done arena h A) HA) in Hstep.
    cbn [mbind outcome_bind] in Hstep. injection Hstep as <-.
    split; [exists A; auto |]. cbn [snd].
    apply Forall_app. split; [assumption |].
    constructor; [| constructor].
    cbn. destruct Hc. split; [reflexivity | lia].
  - unfold arena_free in Hstep.
    rewrite (proj2 (deref_done arena h A) HA) in Hstep.
    cbn [mbind outcome_bind] in Hstep. injection Hstep as <-.
    split; [| assumption].
    exists (set_offsets A 0 0). cbn [fst arenas].
    split; [apply lookup_insert_eq |]. split; [exact Hb |].
    split; [exact Hl |]. unfold cursor_in_bounds. cbn. lia.
  - destruct (cps !! n) as [cp |] eqn:Hn; [| discriminate].
    rewrite Forall_lookup in Hcps.
    destruct (Hcps n cp Hn) as (Hcpa & Hcur).
    unfold arena_restore in Hstep. rewrite Hcpa in Hstep.
    rewrite (proj2 (deref_done arena h A) HA) in Hstep.
    cbn [mbind outcome_bind] in Hstep. injection Hstep as <-.
    split; [| rewrite Forall_lookup; exact Hcps].
    exists (set_offsets A (cp_previous_offset cp) (cp_current_offset cp)).
    cbn [fst arenas].
    split; [apply lookup_insert_eq |]. split; [exact Hb |].
    split; [exact Hl |]. unfold cursor_in_bounds. cbn. lia.
Qed.

Lemma run_client_bounded arena buf len cs :
  0 <= len ->
  forall s s',
    client_bounded arena buf len s ->
    run arena cs s = Done s' ->
    client_bounded arena buf len s'.
Proof.
  intros Hlen. induction cs as [| c cs IH]; intros s s' Hok Hrun.
  - injection Hrun as <-. exact Hok.
  - cbn [run] in Hrun.
    destruct (step arena c s) as [s1 | | |] eqn:Hstep;
      cbn [mbind outcome_bind] in Hrun; try discriminate.
    apply (IH s1 s'); [| exact Hrun].
    apply (step_client_bounded arena buf len c s s1 Hlen Hok Hstep).
Qed.

(** Whatever the sizes and alignments asked for, overflowing or not, after
    any run of calls that returns the arena is still bound to the buffer
    given to [arena_init] and its cursor is within that buffer. *)
Theorem run_cursor_in_bounds arena buf len h cs s' :
  0 <= len ->
  run arena cs (arena_init arena buf len h, nil) = Done s' ->
  exists A,
    arenas s'.1 !! arena = Some A /\
    buffer A = buf /\ buffer_length A = len /\
    0 <= current_offset A <= len.
Proof.
  intros Hlen Hrun.
  apply (run_client_bounded arena buf len cs Hlen) in Hrun.
  - destruct Hrun as [(A & HA & Hb & Hl & Hc) _]. exists A.
    split; [exact HA |]. split; [exact Hb |]. split; [exact Hl |].
    rewrite <- Hl. exact Hc.
  - split; [| constructor].
    eexists. split; [apply lookup_insert_eq |].
    split; [reflexivity |]. split; [reflexivity |].
    unfold cursor_in_bounds. cbn. lia.
Qed.

(** ** What the calls leave alone *)

Lemma binding_insert_offsets a b A prev cur m bs :
  m !! b = Some A ->
  binding a {| arenas := <[b := set_offsets A prev cur]> m; bytes := bs |}
  = (A0 ← m !! a; Some (buffer A0, buffer_length A0)).
Proof.
  intros HA. unfold binding. cbn [arenas].
  destruct (decide (b = a)) as [-> | Hne].
  - rewrite lookup_insert_eq, HA. reflexivity.
  - rewrite lookup_insert_ne by assumption. reflexivity.
Qed.

(** No call changes the buffer an arena is bound to, be it the arena the
    call is made on or another one of the store. *)
Lemma step_binding arena c s s' a :
  step arena c s = Done s' -> binding a s'.1 = binding a s.1.
Proof.
  destruct s as [h cps]. cbn [fst snd].
  destruct c as [r | | | n]; cbn [step fst snd]; intros Hstep.
  - rewrite allocate_unfold in Hstep.
    destruct (arena_alloc_align arena _ _ h) as [[[p |] h'] | | |] eqn:Hal;
      cbn [mbind outcome_bind] in Hstep; try discriminate;
      injection Hstep as <-; cbn [fst snd].
    + apply arena_alloc_align_granted in Hal as (A & o & HA & _ & _ & _ & ->).
      apply (binding_insert_offsets a arena A o _ (arenas h) _ HA).
    + apply arena_alloc_align_refused in Hal as [-> _]. reflexivity.
  - destruct (arena_create_checkpoint arena h); cbn [mbind outcome_bind] in Hstep;
      try discriminate.
    injection Hstep as <-. reflexivity.
  - unfold arena_free in Hstep.
    destruct (deref arena h) as [A | | |] eqn:HA;
      cbn [mbind outcome_bind] in Hstep; try discriminate.
    injection Hstep as <-. cbn [fst]. apply deref_done in HA.
    apply (binding_insert_offsets a arena A 0 0 (arenas h) _ HA).
  - destruct (cps !! n) as [cp |]; [| discriminate].
    unfold arena_restore in Hstep.
    destruct (deref (cp_arena cp) h) as [A | | |] eqn:HA;
      cbn [mbind outcome_bind] in Hstep; try discriminate.
    injection Hstep as <-. cbn [fst]. apply deref_done in HA.
    apply (binding_insert_offsets a (cp_arena cp) A _ _ (arenas h) _ HA).
Qed.

Lemma run_binding arena cs a :
  forall s s', run arena cs s = Done s' -> binding a s'.1 = binding a s.1.
Proof.
  induction cs as [| c cs IH]; intros s s' Hrun.
  - injection Hrun as <-. reflexivity.
  - cbn [run] in Hrun.
    destruct (step arena c s) as [s1 | | |] eqn:Hstep;
      cbn [mbind outcome_bind] in Hrun; try discriminate.
    rewrite (IH s1 s' Hrun). apply (step_binding arena c s s1 a Hstep).
Qed.

(** The pointer an allocation returns and the arena it leaves depend on
    the arena structure alone, not on the bytes or the other arenas. *)
Lemma observe_arena_alloc_align arena size alignment h1 h2 :
  arenas h1 !! arena = arenas h2 !! arena ->
  observe arena (arena_alloc_align arena size alignment h1)
  = observe arena (arena_alloc_align arena size alignment h2).
Proof.
  intros Heq. unfold arena_alloc_align, deref. rewrite Heq.
  destruct (arenas h2 !! arena) as [A |] eqn:H2; cbn [mbind outcome_bind];
    [| reflexivity].
  destruct (aligned_offset A alignment) as [o | | |]; cbn [mbind outcome_bind];
    try reflexivity.
  cbv zeta. unfold memset.
  destruct (_ <=? _); [destruct (within_object _ _ _ _) |];
    unfold observe; cbn [mbind outcome_bind fst snd arenas].
  - rewrite !lookup_insert_eq. reflexivity.
  - reflexivity.
  - rewrite Heq, H2. reflexivity.
Qed.

(** Restoring a checkpoint after any run of calls that returns
    (allocations, resets, further checkpoints and restores) puts back the
    arena structure the checkpoint was taken from: the capacity used since
    is available again, and an allocation returns the pointer it would have
    returned when the checkpoint was taken.  The bytes are not put back. *)
Theorem restore_after_run arena h cps cp cs h' cps' :
  arena_create_checkpoint arena h = Done cp ->
  run arena cs (h, cps) = Done (h', cps') ->
  exists h'',
    arena_restore cp h' = Done h'' /\
    arenas h'' !! arena = arenas h !! arena /\
    bytes h'' = bytes h' /\
    forall size alignment,
      observe arena (arena_alloc_align arena size alignment h'')
      = observe arena (arena_alloc_align arena size alignment h).
Proof.
  intros Hcp Hrun.
  unfold arena_create_checkpoint in Hcp.
  destruct (deref arena h) as [A | | |] eqn:HA; cbn [mbind outcome_bind] in Hcp;
    try discriminate.
  injection Hcp as <-. apply deref_done in HA.
  pose proof (run_binding arena cs arena _ _ Hrun) as Hbind.
  cbn [fst] in Hbind. unfold binding in Hbind. rewrite HA in Hbind.
  destruct (arenas h' !! arena) as [A' |] eqn:HA'; [| discriminate].
  cbn in Hbind. injection Hbind as Hb Hl.
  unfold arena_restore. cbn [cp_arena cp_previous_offset cp_current_offset].
  rewrite (proj2 (deref_done arena h' A') HA'). cbn [mbind outcome_bind].
  eexists. split; [reflexivity |].
  assert (Hsame : set_offsets A' (previous_offset A) (current_offset A) = A).
  { destruct A, A'. cbn in *. subst. reflexivity. }
  assert (Hlook : arenas {| arenas := <[arena := set_offsets A' (previous_offset A)
                                                   (current_offset A)]> (arenas h');
                            bytes := bytes h' |} !! arena = arenas h !! arena).
  { cbn [arenas]. rewrite lookup_insert_eq, Hsame, HA. reflexivity. }
  split; [exact Hlook |]. split; [reflexivity |].
  intros size alignment. apply observe_arena_alloc_align. exact Hlook.
Qed.

(** Restoring the same checkpoint a second time changes nothing. *)
Theorem arena_restore_idempotent cp h h' :
  arena_restore cp h = Done h' -> arena_restore cp h' = Done h'.
Proof.
  unfold arena_restore.
  destruct (deref (cp_arena cp) h) as [A | | |] eqn:HA;
    cbn [mbind outcome_bind]; intros H; try discriminate.
  injection H as <-.
  unfold deref. cbn [arenas bytes]. rewrite lookup_insert_eq.
  cbn [mbind outcome_bind]. rewrite insert_insert_eq. reflexivity.
Qed.

(** [arena_free] is the restoring of a checkpoint taken right after
    [arena_init], on whatever heap it is called. *)
Theorem arena_free_restores_initial arena buf len h0 cp :
  arena_create_checkpoint arena (arena_init arena buf len h0) = Done cp ->
  forall h, arena_restore cp h = arena_free arena h.
Proof.
  unfold arena_create_checkpoint, deref, arena_init. cbn [arenas].
  rewrite lookup_insert_eq. cbn [mbind outcome_bind previous_offset current_offset].
  intros H. injection H as <-. intros h. reflexivity.
Qed.

End Arena.

(** * The callers in src/main.c *)

Lemma MAX_max a b : MAX a b = Z.max a b.
Proof. unfold MAX. rewrite Z.gtb_ltb. destruct (Z.ltb_spec b a); lia. Qed.

Lemma MIN_min a b : MIN a b = Z.min a b.
Proof. unfold MIN. destruct (Z.ltb_spec a b); lia. Qed.

Lemma CLAMP_bounds n low high :
  low <= high -> low <= CLAMP n low high <= high.
Proof. intros H. unfold CLAMP. rewrite MIN_min, MAX_max. lia. Qed.



Lemma u32_range x : 0 <= u32 x < 2 ^ 32.
Proof. apply Z.mod_pos_bound. lia. Qed.

(** When the surface leaves the extent to the application
    ([currentExtent.width] is [UINT32_MAX]) and its bounds are in order,
    the extent chosen is within the bounds in both dimensions, whatever
    size GLFW reports, negative sizes included. *)
Theorem swap_extent_within capabilities fb_width fb_height :
  width (currentExtent capabilities) = UINT32_MAX ->
  width (minImageExtent capabilities) <= width (maxImageExtent capabilities) ->
  height (minImageExtent capabilities) <= height (maxImageExtent capabilities) ->
  let extent := swap_extent capabilities fb_width fb_height in
  width (minImageExtent capabilities) <= width extent
    <= width (maxImageExtent capabilities) /\
  height (minImageExtent capabilities) <= height extent
    <= height (maxImageExtent capabilities).
Proof.
  intros Hcur Hw Hh extent. subst extent. unfold swap_extent.
  rewrite Hcur, Z.eqb_refl. cbn [negb width height].
  split.
  - apply (CLAMP_bounds _ _ _ Hw).
  - apply (CLAMP_bounds _ _ _ Hh).
Qed.

(** For capabilities as Vulkan reports them (a maximum of 0 for no limit,
    or else at least the minimum) and a minimum below [UINT32_MAX], the
    swapchain gets one image more than the minimum, or the maximum when
    that is less. *)
Theorem image_count_bounds capabilities :
  0 <= minImageCount capabilities < UINT32_MAX ->
  maxImageCount capabilities = 0 \/
    minImageCount capabilities <= maxImageCount capabilities ->
  minImageCount capabilities <= image_count capabilities
    <= minImageCount capabilities + 1 /\
  (maxImageCount capabilities = 0 \/
   image_count capabilities <= maxImageCount capabilities).
Proof.
  intros Hmin Hmax. unfold image_count, UINT32_MAX in *. cbv zeta.
  assert (Hn : u32 (minImageCount capabilities + 1)
               = minImageCount capabilities + 1).
  { unfold u32. apply Z.mod_small. lia. }
  rewrite Hn, !Z.gtb_ltb.
  destruct (Z.ltb_spec 0 (maxImageCount capabilities));
    destruct (Z.ltb_spec (maxImageCount capabilities)
                         (minImageCount capabilities + 1));
    cbn [andb]; lia.
Qed.

(** The frame index stays below [MAX_FRAMES_IN_FLIGHT], the length of the
    per-frame arrays, from any value, and from 0 the frames take turns:
    after [n] frames the index is [n mod MAX_FRAMES_IN_FLIGHT]. *)
Theorem next_frame_round_robin :
  (forall current_frame,
      0 <= next_frame current_frame < MAX_FRAMES_IN_FLIGHT) /\
  (forall n : nat,
      Nat.iter n next_frame 0 = Z.of_nat n mod MAX_FRAMES_IN_FLIGHT).
Proof.
  assert (Hnext : forall x, next_frame x = u32 (x + 1) mod MAX_FRAMES_IN_FLIGHT).
  { intros x. unfold next_frame, MAX_FRAMES_IN_FLIGHT.
    pose proof (Z.mod_pos_bound (u32 (x + 1)) 2 ltac:(lia)).
    unfold u32 at 1. apply Z.mod_small. lia. }
  split.
  - intros x. rewrite Hnext. apply Z.mod_pos_bound.
    unfold MAX_FRAMES_IN_FLIGHT. lia.
  - induction n as [| n IH]; [reflexivity |].
    rewrite Nat.iter_succ, IH, Hnext. unfold MAX_FRAMES_IN_FLIGHT.
    pose proof (Z.mod_pos_bound (Z.of_nat n) 2 ltac:(lia)).
    unfold u32. rewrite (Z.mod_small (Z.of_nat n mod 2 + 1)) by lia.
    rewrite Zplus_mod_idemp_l. f_equal. lia.
Qed.

Section Selection.

Variable VK_FORMAT_UNDEFINED : Z.
Variable VK_FORMAT_B8G8R8A8_SRGB : Z.
Variable VK_COLOR_SPACE_SRGB_NONLINEAR_KHR : Z.
Variable VK_PRESENT_MODE_MAILBOX_KHR : Z.
Variable VK_PRESENT_MODE_FIFO_KHR : Z.

Local Abbreviation preferred_format :=
  (preferred_format VK_FORMAT_B8G8R8A8_SRGB VK_COLOR_SPACE_SRGB_NONLINEAR_KHR).
Local Abbreviation scan_formats :=
  (scan_formats VK_FORMAT_B8G8R8A8_SRGB VK_COLOR_SPACE_SRGB_NONLINEAR_KHR).
Local Abbreviation choose_surface_format :=
  (choose_surface_format VK_FORMAT_UNDEFINED VK_FORMAT_B8G8R8A8_SRGB
                         VK_COLOR_SPACE_SRGB_NONLINEAR_KHR).
Local Abbreviation scan_present_modes :=
  (scan_present_modes VK_PRESENT_MODE_MAILBOX_KHR).
Local Abbreviation choose_present_mode :=
  (choose_present_mode VK_PRESENT_MODE_MAILBOX_KHR VK_PRESENT_MODE_FIFO_KHR).

(** The present mode chosen is the mailbox mode when the device offers it,
    wherever in the list, and the FIFO mode otherwise, offered or not. *)
Theorem choose_present_mode_spec modes :
  choose_present_mode modes =
  if decide (VK_PRESENT_MODE_MAILBOX_KHR ∈ modes)
  then VK_PRESENT_MODE_MAILBOX_KHR else VK_PRESENT_MODE_FIFO_KHR.
Proof.
  unfold choose_present_mode. generalize VK_PRESENT_MODE_FIFO_KHR.
  intros present_mode.
  induction modes as [| m modes IH]; cbn [scan_present_modes].
  - rewrite decide_False by apply not_elem_of_nil. reflexivity.
  - destruct (Z.eqb_spec m VK_PRESENT_MODE_MAILBOX_KHR) as [-> | Hne].
    + rewrite decide_True by (apply elem_of_cons; now left). reflexivity.
    + rewrite IH.
      destruct (decide (VK_PRESENT_MODE_MAILBOX_KHR ∈ modes)) as [Hin | Hnin].
      * rewrite decide_True by (apply elem_of_cons; now right). reflexivity.
      * rewrite decide_False; [reflexivity |].
        intros [Heq | Hin]%elem_of_cons; congruence.
Qed.

Lemma scan_formats_cases formats surface_format :
  (exists f, scan_formats formats surface_format = f /\
             f ∈ formats /\ preferred_format f = true) \/
  (scan_formats formats surface_format = surface_format /\
   Forall (fun g => preferred_format g = false) formats).
Proof.
  induction formats as [| g formats IH]; cbn [scan_formats].
  - right. split; [reflexivity | constructor].
  - fold (preferred_format g).
    destruct (preferred_format g) eqn:Hg.
    + left. exists g. split; [reflexivity |].
      split; [apply elem_of_cons; now left | assumption].
    + destruct IH as [(f & Hf & Hin & Hp) | [Hs Hall]].
      * left. exists f. split; [assumption |].
        split; [apply elem_of_cons; now right | assumption].
      * right. split; [assumption | constructor; assumption].
Qed.

(** From a device that supports some format, the format chosen is one the
    device supports: the preferred one when it is among them, and the
    first of the list when it is not. *)
Theorem choose_surface_format_spec formats :
  formats <> nil ->
  VK_FORMAT_B8G8R8A8_SRGB <> VK_FORMAT_UNDEFINED ->
  exists f,
    choose_surface_format formats = Some f /\
    f ∈ formats /\
    (preferred_format f = true \/
     Forall (fun g => preferred_format g = false) formats /\
     formats !! 0%nat = Some f).
Proof.
  intros Hne Hundef. unfold choose_surface_format. cbv zeta.
  destruct (scan_formats_cases formats
              {| format := VK_FORMAT_UNDEFINED; colorSpace := 0 |})
    as [(f & -> & Hin & Hp) | [-> Hall]].
  - exists f.
    assert (Hf : format f = VK_FORMAT_B8G8R8A8_SRGB).
    { unfold preferred_format in Hp. apply andb_true_iff in Hp as [Hp _].
      apply Z.eqb_eq. exact Hp. }
    rewrite Hf. destruct (Z.eqb_spec VK_FORMAT_B8G8R8A8_SRGB VK_FORMAT_UNDEFINED);
      [contradiction |].
    auto.
  - cbn [format]. rewrite Z.eqb_refl.
    destruct formats as [| f formats]; [contradiction |].
    exists f. split; [reflexivity |].
    split; [apply elem_of_cons; now left |].
    right. split; [assumption | reflexivity].
Qed.

End Selection.

Section Families.

Variable VK_QUEUE_GRAPHICS_BIT : Z.
Variable sizeof_VkQueueFamilyProperties : Z.
Variable store_families : list queue_family -> Z -> (Z -> Byte.byte) -> Z -> Byte.byte.
Variable ptr_bytes : positive.

Local Abbreviation has_graphics := (has_graphics VK_QUEUE_GRAPHICS_BIT).
Local Abbreviation scan_queue_families :=
  (scan_queue_families VK_QUEUE_GRAPHICS_BIT).
Local Abbreviation scan_invariant := (scan_invariant VK_QUEUE_GRAPHICS_BIT).
Local Abbreviation indices_sound := (indices_sound VK_QUEUE_GRAPHICS_BIT).
Local Abbreviation find_queue_families :=
  (find_queue_families VK_QUEUE_GRAPHICS_BIT sizeof_VkQueueFamilyProperties
                       store_families ptr_bytes).

(** The flags only go up, and the loop goes on until both are up: each
    flag ends up set exactly when it was set or some family has the
    capability. *)
Lemma scan_queue_families_flags rest :
  forall i ix,
    graphics_family_exists (scan_queue_families rest i ix)
    = graphics_family_exists ix || existsb has_graphics rest /\
    presentation_family_exists (scan_queue_families rest i ix)
    = presentation_family_exists ix || existsb presentation_support rest.
Proof.
  induction rest as [| f rest IH]; intros i ix; cbn [scan_queue_families existsb].
  - rewrite !orb_false_r. split; reflexivity.
  - destruct ix as [ge g pe p].
    destruct (has_graphics f), (presentation_support f), ge, pe;
      cbn [graphics_family_exists presentation_family_exists andb orb];
      try (split; reflexivity);
      match goal with
      | |- context [scan_queue_families rest ?j ?x] =>
          destruct (IH j x) as [-> ->]; split; reflexivity
      end.
Qed.

Lemma family_at_lookup (families : list queue_family) (k : nat) :
  family_at families (Z.of_nat k) = families !! k.
Proof. unfold family_at. rewrite Nat2Z.id. reflexivity. Qed.

Lemma scan_invariant_end families k ix :
  scan_invariant families k ix -> indices_sound families ix.
Proof.
  intros (H1 & H2 & H3). unfold indices_sound.
  split; [| split].
  - destruct (graphics_family_exists ix); [right; apply H2 | now left].
  - destruct (presentation_family_exists ix); [right; apply H3 | now left].
  - left. exact H1.
Qed.

Lemma family_at_unique families i f (P : queue_family -> bool) :
  family_at families i = Some f -> P f = false ->
  ~ exists f', family_at families i = Some f' /\ P f' = true.
Proof.
  intros Hf Hp (f' & Hf' & Hp'). rewrite Hf in Hf'. injection Hf' as <-.
  congruence.
Qed.

Lemma scan_queue_families_sound rest :
  forall pre ix,
    Z.of_nat (length (pre ++ rest)) < 2 ^ 32 ->
    scan_invariant (pre ++ rest) (length pre) ix ->
    indices_sound (pre ++ rest)
                  (scan_queue_families rest (Z.of_nat (length pre)) ix).
Proof.
  induction rest as [| f rest IH]; intros pre ix Hlen Hinv.
  - apply (scan_invariant_end _ _ _ Hinv).
  - set (all := pre ++ f :: rest) in *.
    set (k := length pre) in *.
    assert (Hk : all !! k = Some f) by (apply list_lookup_middle; reflexivity).
    assert (Hat : family_at all (Z.of_nat k) = Some f)
      by (rewrite family_at_lookup; exact Hk).
    assert (Hu : u32 (Z.of_nat k) = Z.of_nat k).
    { unfold u32. apply Z.mod_small. unfold all, k in *.
      rewrite length_app in Hlen. cbn [length] in Hlen. lia. }
    assert (Hnext : forall ix2,
               scan_invariant all (S k) ix2 ->
               indices_sound all (scan_queue_families rest (Z.of_nat k + 1) ix2)).
    { intros ix2 Hi2.
      assert (Hall : all = (pre ++ f :: nil) ++ rest)
        by (unfold all; rewrite <- app_assoc; reflexivity).
      assert (Hl : length (pre ++ f :: nil) = S k)
        by (rewrite length_app; cbn [length]; unfold k; lia).
      specialize (IH (pre ++ f :: nil) ix2).
      rewrite <- Hall, Hl in IH.
      replace (Z.of_nat (S k)) with (Z.of_nat k + 1) in IH by lia.
      apply IH; assumption. }
    assert (Hext : forall (P : queue_family -> bool),
               P f = false ->
               (forall j g, (j < k)%nat -> all !! j = Some g -> P g = false) ->
               forall j g, (j < S k)%nat -> all !! j = Some g -> P g = false).
    { intros P HP Hbelow j g Hj Hg.
      destruct (Nat.eq_dec j k) as [-> | Hne].
      - rewrite Hk in Hg. injection Hg as <-. exact HP.
      - apply (Hbelow j g); [lia | exact Hg]. }
    cbn [scan_queue_families]. rewrite Hu.
    destruct ix as [ge g pe p]. destruct Hinv as (H1 & H2 & H3).
    cbn [graphics_family_exists graphics_family presentation_family_exists
         presentation_family] in H1, H2, H3.
    destruct (has_graphics f) eqn:Hg, (presentation_support f) eqn:Hp;
      destruct ge, pe; try discriminate H1;
      cbn [graphics_family_exists graphics_family presentation_family_exists
           presentation_family andb].
    all: try (apply Hnext; repeat split;
              cbn [graphics_family_exists graphics_family
                   presentation_family_exists presentation_family andb];
              first [ reflexivity | lia
                    | exists f; split; assumption
                    | apply Hext; assumption
                    | destruct H2 as [? ?]; lia
                    | destruct H3 as [? ?]; lia
                    | apply H2 | apply H3 ]).
    all: unfold indices_sound;
      cbn [graphics_family_exists graphics_family presentation_family_exists
           presentation_family andb].
    1-3: (split; [right; exists f; split; assumption |];
          split; [right; exists f; split; assumption |];
          right; split; [intros _; exists f; split; assumption | reflexivity]).
    + destruct H3 as [Hp3 Hf3].
      split; [right; exists f; split; assumption |].
      split; [right; exact Hf3 |].
      right. split; [intros Heq; lia |].
      intros Hex. destruct (family_at_unique all _ f _ Hat Hp Hex).
    + destruct H2 as [Hg2 Hf2].
      split; [right; exact Hf2 |].
      split; [right; exists f; split; assumption |].
      right. split; [intros Heq; lia |].
      intros (f0 & Hf0 & Hp0). unfold family_at in Hf0.
      rewrite (H3 (Z.to_nat g) f0 ltac:(lia) Hf0) in Hp0. discriminate.
Qed.

Lemma scan_invariant_start families :
  scan_invariant families 0
    {| graphics_family_exists := false; graphics_family := 0;
       presentation_family_exists := false; presentation_family := 0 |}.
Proof.
  split; [reflexivity |]. split; intros j f Hj; lia.
Qed.

(** When [find_queue_families] returns, its indices are those of the loop
    run from the first family, the arena it used is restored, and the
    memory holds what Vulkan stored in the region it was granted. *)
Lemma find_queue_families_done global_arena families h ix h' :
  find_queue_families global_arena families h = Done (ix, h') ->
  ix = scan_queue_families families 0
         {| graphics_family_exists := false; graphics_family := 0;
            presentation_family_exists := false; presentation_family := 0 |} /\
  arenas h' = arenas h /\
  exists A, arenas h !! global_arena = Some A.
Proof.
  unfold find_queue_families, arena_create_checkpoint, arena_alloc. cbv zeta.
  destruct (deref global_arena h) as [A | | |] eqn:HA;
    cbn [mbind outcome_bind]; try discriminate.
  apply deref_done in HA.
  destruct (arena_alloc_align _ _ _ _ h) as [[[p |] h1] | | |] eqn:Hal;
    cbn [mbind outcome_bind fst snd]; try discriminate.
  apply arena_alloc_align_granted in Hal as (A1 & o & HA1 & _ & _ & _ & ->).
  rewrite HA in HA1. injection HA1 as <-.
  unfold arena_restore, deref.
  cbn [cp_arena cp_previous_offset cp_current_offset arenas bytes].
  rewrite lookup_insert_eq. cbn [mbind outcome_bind].
  intros H. injection H as <- <-.
  split; [reflexivity |]. split; [| exists A; exact HA].
  cbn [arenas]. rewrite insert_insert_eq.
  replace (set_offsets _ _ _) with A by (destruct A; reflexivity).
  apply insert_id. exact HA.
Qed.

(** [find_queue_families] gives the arena back as it found it: when it
    returns, every arena structure of the store, the one it allocated from
    included, is what it was before the call. *)
Theorem find_queue_families_keeps_arenas global_arena families h ix h' :
  find_queue_families global_arena families h = Done (ix, h') ->
  arenas h' = arenas h.
Proof.
  intros H. apply find_queue_families_done in H as (_ & H & _). exact H.
Qed.

(** The flags returned tell whether the device has a family for graphics
    and whether it has one that can present: each flag is set exactly when
    some family of the device has the capability.  The number of families
    is one Vulkan can report, a [uint32_t]. *)
Theorem find_queue_families_flags global_arena families h ix h' :
  Z.of_nat (length families) < 2 ^ 32 ->
  find_queue_families global_arena families h = Done (ix, h') ->
  graphics_family_exists ix = existsb has_graphics families /\
  presentation_family_exists ix = existsb presentation_support families.
Proof.
  intros _ H. apply find_queue_families_done in H as (-> & _ & _).
  apply scan_queue_families_flags.
Qed.

(** For a device with fewer than [2 ^ 32] families, an index returned with
    its flag set is that of a family with the capability; and when both
    flags are set the two indices are the same exactly when the graphics
    family found can present, which is what [main] asserts on line 314. *)
Theorem find_queue_families_sound global_arena families h ix h' :
  Z.of_nat (length families) < 2 ^ 32 ->
  find_queue_families global_arena families h = Done (ix, h') ->
  indices_sound families ix.
Proof.
  intros Hlen H. apply find_queue_families_done in H as (-> & _ & _).
  apply (scan_queue_families_sound families nil); [exact Hlen |].
  apply scan_invariant_start.
Qed.

End Families.


Section ZeroAlignment.

Variable ptr_bytes : positive.

(** Alignment 0 passes the assertion of [align], but the aligned address
    is then 0: on a well placed arena every request for fewer bytes than
    the address of the buffer, and more than none, is refused, however
    empty the arena. *)
Theorem arena_alloc_align_zero_alignment arena size h A :
  arenas h !! arena = Some A ->
  well_placed ptr_bytes A ->
  0 < size < buffer A ->
  arena_alloc_align ptr_bytes arena size 0 h = Done (None, h).
Proof.
  intros HA Hw Hs.
  pose proof (aligned_offset_0 ptr_bytes A Hw) as Ho.
  destruct Hw as (Hb & Hl & Hfit).
  apply (arena_alloc_align_insufficient ptr_bytes arena size 0 h A _ HA Ho);
    lia.
Qed.

End ZeroAlignment.

(** * Instances of the further theorems *)

Lemma well_placed_arena_10 : well_placed LP64 arena_10.
Proof.
  unfold well_placed. rewrite modulus_LP64. cbn. lia.
Defined.

Lemma cursor_in_bounds_arena_10 : cursor_in_bounds arena_10.
Proof. unfold cursor_in_bounds. cbn. lia. Defined.

Lemma word_bits_LP64_4 : 0 <= 4 < word_bits LP64.
Proof. unfold word_bits, LP64. lia. Defined.

Lemma is_power_of_two_iff_witness :
  is_power_of_two LP64 16 = true <->
  16 = 0 \/ exists k, 0 <= k < word_bits LP64 /\ 16 = 2 ^ k.
Proof.
  apply (is_power_of_two_iff LP64 16). apply word_LP64. lia.
Defined.

Lemma align_idempotent_witness :
  align LP64 10 (2 ^ 4) = Done 16 /\ align LP64 16 (2 ^ 4) = Done 16.
Proof.
  assert (H : align LP64 10 (2 ^ 4) = Done 16) by reflexivity.
  split; [exact H |].
  apply (align_idempotent LP64 10 4 16 word_bits_LP64_4 H).
Defined.

Lemma allocation_padding_bound_witness :
  arena_alloc_align LP64 1 5 (2 ^ 4) heap_10 = Done (Some 4112, heap_15) /\
  exists A',
    arenas heap_15 !! 1 = Some A' /\
    4112 = wrap LP64 (buffer arena_10 + previous_offset A') /\
    current_offset arena_10 <= previous_offset A'
      < current_offset arena_10 + 2 ^ 4.
Proof.
  assert (H : arena_alloc_align LP64 1 5 (2 ^ 4) heap_10
              = Done (Some 4112, heap_15)) by reflexivity.
  split; [exact H |].
  apply (allocation_padding_bound LP64 1 5 4 heap_10 arena_10 4112 heap_15).
  - reflexivity.
  - exact well_placed_arena_10.
  - exact cursor_in_bounds_arena_10.
  - exact word_bits_LP64_4.
  - exact H.
Defined.


Lemma arena_alloc_align_refused_iff_witness :
  arena_alloc_align LP64 1 50 16 heap_10 = Done (None, heap_10) <->
  buffer_length arena_10 < 16 + 50.
Proof.
  apply (arena_alloc_align_refused_iff LP64 1 50 16 heap_10 arena_10 16).
  - reflexivity.
  - reflexivity.
  - lia.
  - rewrite modulus_LP64. lia.
Defined.

Lemma arena_alloc_align_within_buffer_witness :
  arena_alloc_align LP64 1 5 16 heap_10 = Done (Some 4112, heap_15) /\
  buffer arena_10 <= 4112 /\
  4112 + 5 <= buffer arena_10 + buffer_length arena_10.
Proof.
  assert (H : arena_alloc_align LP64 1 5 16 heap_10
              = Done (Some 4112, heap_15)) by reflexivity.
  split; [exact H |].
  refine (proj1 (arena_alloc_align_within_buffer LP64 1 5 16 heap_10 arena_10
                   16 4112 heap_15 _ well_placed_arena_10
                   cursor_in_bounds_arena_10 _ _ _ _ H) _).
  - reflexivity.
  - apply word_LP64. lia.
  - lia.
  - reflexivity.
  - rewrite modulus_LP64. lia.
  - lia.
Defined.

Lemma arena_alloc_no_trap_witness :
  arena_alloc LP64 1 huge heap_10 <> Trap /\
  arena_alloc LP64 1 huge heap_10 <> Undefined.
Proof.
  apply (arena_alloc_no_trap LP64 1 huge heap_10 arena_10 3); reflexivity.
Defined.

Lemma arena_alloc_align_zero_alignment_witness :
  arena_alloc_align LP64 1 5 0 heap_10 = Done (None, heap_10).
Proof.
  apply (arena_alloc_align_zero_alignment LP64 1 5 heap_10 arena_10).
  - reflexivity.
  - exact well_placed_arena_10.
  - cbn. lia.
Defined.

Lemma run_cursor_in_bounds_witness :
  exists s' A,
    run LP64 1 scoped_calls (arena_init 1 4096 64 no_arenas, nil) = Done s' /\
    arenas s'.1 !! 1 = Some A /\
    buffer A = 4096 /\ buffer_length A = 64 /\
    0 <= current_offset A <= 64.
Proof.
  assert (H : {s' | run LP64 1 scoped_calls (arena_init 1 4096 64 no_arenas, nil)
                    = Done s'}) by (eexists; reflexivity).
  destruct H as [s' H]. exists s'.
  destruct (run_cursor_in_bounds LP64 1 4096 64 no_arenas scoped_calls s')
    as (A & HA); [lia | exact H |].
  exists A. split; [exact H | exact HA].
Defined.

Lemma restore_after_run_witness :
  arena_create_checkpoint 1 heap_10 = Done checkpoint_10 /\
  run LP64 1 (Allocate (Alloc 5) :: nil) (heap_10, nil) = Done (heap_15, nil) /\
  exists h'',
    arena_restore checkpoint_10 heap_15 = Done h'' /\
    arenas h'' !! 1 = arenas heap_10 !! 1.
Proof.
  assert (Hcp : arena_create_checkpoint 1 heap_10 = Done checkpoint_10)
    by reflexivity.
  assert (Hrun : run LP64 1 (Allocate (Alloc 5) :: nil) (heap_10, nil)
                 = Done (heap_15, nil)) by reflexivity.
  split; [exact Hcp |]. split; [exact Hrun |].
  destruct (restore_after_run LP64 1 heap_10 nil checkpoint_10 _ heap_15 nil
              Hcp Hrun) as (h'' & Hr & Ha & _).
  exists h''. split; assumption.
Defined.

Lemma arena_restore_idempotent_witness :
  exists h',
    arena_restore checkpoint_10 heap_15 = Done h' /\
    arena_restore checkpoint_10 h' = Done h'.
Proof.
  assert (H : {h' | arena_restore checkpoint_10 heap_15 = Done h'})
    by (eexists; reflexivity).
  destruct H as [h' H]. exists h'.
  split; [exact H | exact (arena_restore_idempotent checkpoint_10 heap_15 h' H)].
Defined.

Lemma arena_free_restores_initial_witness :
  arena_create_checkpoint 1 (arena_init 1 4096 64 no_arenas) = Done checkpoint_0 /\
  arena_restore checkpoint_0 heap_15 = arena_free 1 heap_15.
Proof.
  assert (H : arena_create_checkpoint 1 (arena_init 1 4096 64 no_arenas)
              = Done checkpoint_0) by reflexivity.
  split; [exact H |].
  apply (arena_free_restores_initial 1 4096 64 no_arenas checkpoint_0 H).
Defined.

Lemma exact_run_invariant_witness :
  exists s' A,
    exact_run LP64 1 scoped_calls (arena_init 1 4096 64 no_arenas, nil) s' /\
    arenas s'.1 !! 1 = Some A /\ invariant A.
Proof.
  assert (Hex : forall size A o0,
             0 <= size < 64 ->
             aligned_offset LP64 A 16 = Done o0 -> 0 <= o0 <= 64 ->
             exact LP64 (Alloc size) A).
  { intros size A o0 Hs Ho Hr. split; [apply word_LP64; lia |].
    intros o Ho'. change (request_alignment LP64 (Alloc size)) with 16 in Ho'.
    rewrite Ho in Ho'. injection Ho' as <-.
    rewrite modulus_LP64. cbn [request_size]. lia. }
  assert (H : {s' | exact_run LP64 1 scoped_calls
                      (arena_init 1 4096 64 no_arenas, nil) s'}).
  { eexists. unfold scoped_calls.
    eapply exact_allocate;
      [reflexivity | apply (Hex 10 _ 0); [lia | reflexivity | lia]
      | reflexivity |].
    eapply exact_other; [intros r; discriminate | reflexivity |].
    eapply exact_allocate;
      [reflexivity | apply (Hex 5 _ 16); [lia | reflexivity | lia]
      | reflexivity |].
    eapply exact_other; [intros r; discriminate | reflexivity |].
    apply exact_nil. }
  destruct H as [s' H]. exists s'.
  destruct (exact_run_invariant LP64 1 4096 64 no_arenas scoped_calls s')
    as (A & HA & Hinv).
  - lia.
  - lia.
  - rewrite modulus_LP64. lia.
  - exact H.
  - exists A. split; [exact H |]. split; assumption.
Defined.



Lemma swap_extent_within_witness :
  1 <= width (swap_extent surface_capabilities (-1) 600) <= 4096 /\
  1 <= height (swap_extent surface_capabilities (-1) 600) <= 4096.
Proof.
  apply (swap_extent_within surface_capabilities (-1) 600).
  - reflexivity.
  - cbn. lia.
  - cbn. lia.
Defined.

Lemma image_count_bounds_witness :
  2 <= image_count surface_capabilities <= 2 + 1 /\
  (3 = 0 \/ image_count surface_capabilities <= 3).
Proof.
  apply (image_count_bounds surface_capabilities).
  - unfold UINT32_MAX. cbn. lia.
  - right. cbn. lia.
Defined.

Lemma choose_surface_format_spec_witness :
  exists f,
    choose_surface_format vk_format_undefined vk_format_b8g8r8a8_srgb
                          vk_color_space_srgb_nonlinear two_formats = Some f /\
    f ∈ two_formats /\
    (preferred_format vk_format_b8g8r8a8_srgb vk_color_space_srgb_nonlinear f
     = true \/
     Forall (fun g => preferred_format vk_format_b8g8r8a8_srgb
                                       vk_color_space_srgb_nonlinear g = false)
            two_formats /\
     two_formats !! 0%nat = Some f).
Proof.
  apply (choose_surface_format_spec vk_format_undefined vk_format_b8g8r8a8_srgb
           vk_color_space_srgb_nonlinear two_formats); discriminate.
Defined.

Lemma find_queue_families_two_families :
  { res | find_queue_families vk_queue_graphics_bit 24 store_nothing LP64
            1 two_families main_heap = Done res }.
Proof. eexists. reflexivity. Defined.

Lemma find_queue_families_keeps_arenas_witness :
  exists ix h',
    find_queue_families vk_queue_graphics_bit 24 store_nothing LP64
      1 two_families main_heap = Done (ix, h') /\
    arenas h' = arenas main_heap.
Proof.
  destruct find_queue_families_two_families as [[ix h'] H].
  exists ix, h'. split; [exact H |].
  exact (find_queue_families_keeps_arenas vk_queue_graphics_bit 24 store_nothing
           LP64 1 two_families main_heap ix h' H).
Defined.

Lemma find_queue_families_flags_witness :
  exists ix h',
    find_queue_families vk_queue_graphics_bit 24 store_nothing LP64
      1 two_families main_heap = Done (ix, h') /\
    graphics_family_exists ix
    = existsb (has_graphics vk_queue_graphics_bit) two_families /\
    presentation_family_exists ix
    = existsb presentation_support two_families.
Proof.
  destruct find_queue_families_two_families as [[ix h'] H].
  exists ix, h'. split; [exact H |].
  refine (find_queue_families_flags vk_queue_graphics_bit 24 store_nothing
            LP64 1 two_families main_heap ix h' _ H).
  cbn. lia.
Defined.

Lemma find_queue_families_sound_witness :
  exists ix h',
    find_queue_families vk_queue_graphics_bit 24 store_nothing LP64
      1 two_families main_heap = Done (ix, h') /\
    indices_sound vk_queue_graphics_bit two_families ix.
Proof.
  destruct find_queue_families_two_families as [[ix h'] H].
  exists ix, h'. split; [exact H |].
  refine (find_queue_families_sound vk_queue_graphics_bit 24 store_nothing
            LP64 1 two_families main_heap ix h' _ H).
  cbn. lia.
Defined.
